(** * Past Forward: the slider interpolation and the batch of generations

    A shallow embedding of [src/components/ImageMorpher.tsx] and of the
    generation handler of [src/App.tsx].

    JavaScript numbers are modelled by exact rationals ([Q]): the slider
    yields decimal values with step 0.01 and the indices are array
    positions, so the arithmetic of [calculateOpacity] (a subtraction, an
    absolute value, a comparison with 1) is read over the rationals.
    Equalities between weights are therefore stated with [==] ([Qeq]).

    The record [Record<string, GeneratedImage>] is a [gmap string
    GeneratedImage]; an optional field is an [option]. *)

From Stdlib Require Import QArith Qabs Qminmax Qround Lqa.
From stdpp Require Import gmap strings list fin_maps pretty.

Local Open Scope Q_scope.

(** ** Data model ([src/App.tsx]) *)

(** [type ImageStatus = 'pending' | 'done' | 'error'].  The constructors are
    capitalised because [error] is also a field of [GeneratedImage]. *)
Inductive ImageStatus : Set := Pending | Done | Error.

#[global] Instance ImageStatus_eq_dec : EqDecision ImageStatus.
Proof. solve_decision. Defined.

(** [interface GeneratedImage { status; url?; error? }] *)
Record GeneratedImage : Set := mkGeneratedImage {
  status : ImageStatus;
  url : option string;
  error : option string
}.

#[global] Instance GeneratedImage_eq_dec : EqDecision GeneratedImage.
Proof. solve_decision. Defined.

(** ** The morpher ([src/components/ImageMorpher.tsx]) *)

Module ImageMorpher.

(** One element of the array built by [labels.map(label => ({ label, url,
    status }))]: [images[label]?.url] and [images[label]?.status] are
    [undefined] when the label has no entry. *)
Record Entry : Set := mkEntry {
  label : string;
  entry_url : option string;
  entry_status : option ImageStatus
}.

(** Truthiness of [image.url]: [undefined] and the empty string are falsy. *)
Definition truthy (s : option string) : bool :=
  match s with
  | None => false
  | Some s => negb (String.eqb s EmptyString)
  end.

Definition entryOf (images : gmap string GeneratedImage) (l : string) : Entry :=
  {| label := l;
     entry_url := images !! l ≫= url;
     entry_status := status <$> images !! l |}.

(** [image => image.status === 'done' && image.url] *)
Definition isSuccessful (image : Entry) : bool :=
  bool_decide (entry_status image = Some Done) && truthy (entry_url image).

Definition successfulImages (images : gmap string GeneratedImage)
    (labels : list string) : list Entry :=
  List.filter isSuccessful (entryOf images <$> labels).

(** The labels of a mapping whose entry is usable: status ['done'] and a
    non-empty url. *)
Definition usable (images : gmap string GeneratedImage) (l : string) : bool :=
  match images !! l with
  | Some image => bool_decide (status image = Done) && truthy (url image)
  | None => false
  end.

Definition usableLabels (images : gmap string GeneratedImage)
    (labels : list string) : list string :=
  List.filter (usable images) labels.

(** The sequence in the words of the specification: the labels, in their
    order, restricted to those whose status is ['done']. *)
Definition doneLabels (images : gmap string GeneratedImage)
    (labels : list string) : list string :=
  List.filter (fun l => bool_decide (status <$> images !! l = Some Done)) labels.

(** [calculateOpacity(index, currentValue)] *)
Definition calculateOpacity (index currentValue : Q) : Q :=
  let distance := Qabs (currentValue - index) in
  if negb (Qle_bool distance 1) then 0
  else 1 - distance.

(** The array index handed to [calculateOpacity] by
    [successfulImages.map((image, index) => ...)]. *)
Definition ofIndex (index : nat) : Q := inject_Z (Z.of_nat index).

(** The [style.opacity] of every rendered [<img>], in order. *)
Definition opacities (images : gmap string GeneratedImage)
    (labels : list string) (sliderValue : Q) : list Q :=
  imap (fun index _ => calculateOpacity (ofIndex index) sliderValue)
       (successfulImages images labels).

(** The [min] and [max] attributes of the range input. *)
Definition sliderMin : Q := 0.

Definition sliderMax (images : gmap string GeneratedImage)
    (labels : list string) : Q :=
  let n := length (successfulImages images labels) in
  if (1 <? n)%nat then ofIndex (n - 1) else 1.

End ImageMorpher.

Import ImageMorpher.

(** ** The generation handler ([src/App.tsx]) *)

Definition TIME_SHIFTS : list Z := [-75; -50; -25; 25; 50; 75]%Z.

(** [shift < 0 ? `${shift} years` : `+${shift} years`] *)
Definition timeLabel (shift : Z) : string :=
  if (shift <? 0)%Z then pretty shift +:+ " years"
  else "+" +:+ pretty shift +:+ " years".

Definition TIME_LABELS : list string := timeLabel <$> TIME_SHIFTS.

Definition getTransformPrompt (shift : Z) : string :=
  "You are an expert in historical and futuristic photography styles. Using the provided image, which is from the present day, transform it to look like it was taken "
  +:+ pretty (Z.abs shift) +:+ " years in the "
  +:+ (if (shift <? 0)%Z then "past" else "future")
  +:+ ". The entire image, including people, background, objects, fashion, and photographic style (color, grain, quality, aspect ratio) should be modified to convincingly represent that era. Do not add any text or overlays to the image. Ensure the output is a photorealistic image and maintains the core composition of the original.".

(** The [appState] of the component. *)
Inductive AppState : Set :=
  select_image | confirm_image | generating | results_shown.

(** The React state of [App] that the handler reads and writes. *)
Record App : Type := mkApp {
  sourceImage : option string;
  generatedImages : gmap string GeneratedImage;
  sliderValue : Q;
  appState : AppState
}.

(** The state after the [useState] initialisers. *)
Definition initialApp : App :=
  {| sourceImage := None; generatedImages := ∅; sliderValue := 2;
     appState := select_image |}.

Definition setAppState (s : AppState) (a : App) : App :=
  {| sourceImage := sourceImage a; generatedImages := generatedImages a;
     sliderValue := sliderValue a; appState := s |}.

(** [setGeneratedImages(prev => f(prev))]; the direct form
    [setGeneratedImages(v)] is [setGeneratedImages (fun _ => v)]. *)
Definition setGeneratedImages
    (f : gmap string GeneratedImage -> gmap string GeneratedImage) (a : App) : App :=
  {| sourceImage := sourceImage a; generatedImages := f (generatedImages a);
     sliderValue := sliderValue a; appState := appState a |}.

(** What the external call [transformImageForTimePeriod] can settle with:
    the promise it returns fulfils with an image url, or rejects with a
    thrown value, which is an [Error] carrying a message or anything else.
    A call that never settles delivers no outcome. *)
Inductive Thrown : Set :=
| ErrorObject (message : string)
| OtherValue.

Inductive Outcome : Set :=
| Resolves (newImageUrl : string)
| Rejects (err : Thrown).

(** The state of a promise whose value is not used. *)
Inductive Promise : Set :=
| PendingP
| FulfilledP
| RejectedP (reason : Thrown).

#[global] Instance Thrown_eq_dec : EqDecision Thrown.
Proof. solve_decision. Defined.
#[global] Instance Outcome_eq_dec : EqDecision Outcome.
Proof. solve_decision. Defined.
#[global] Instance Promise_eq_dec : EqDecision Promise.
Proof. solve_decision. Defined.

(** One element of [generationPromises]: the call that was issued and the
    state of the promise returned by its [.then(...).catch(...)] chain. *)
Record Task : Set := mkTask {
  task_label : string;
  task_source : string;
  task_prompt : string;
  task_state : Promise
}.

(** A call of [handleGenerateClick] in progress: the component state, the
    array [generationPromises], the lines written by [console.error] during
    the call, and the promise returned by the async handler itself.  One
    call is followed at a time: the Generate button is rendered only while
    [appState] is ['confirm-image'], which the call leaves at once. *)
Record Run : Type := mkRun {
  app : App;
  generationPromises : list Task;
  console : list string;
  handler : Promise
}.

Definition pendingImage : GeneratedImage :=
  {| status := Pending; url := None; error := None |}.

(** [TIME_LABELS.forEach(label => { initialImages[label] = { status: 'pending' } })] *)
Definition initialImages : gmap string GeneratedImage :=
  foldl (fun images l => <[l := pendingImage]> images) ∅ TIME_LABELS.

(** [TIME_LABELS[index]], used as a computed key: an index out of range
    reads [undefined], whose key is the string "undefined". *)
Definition labelAt (index : nat) : string :=
  default "undefined" (TIME_LABELS !! index).

(** The body of [TIME_SHIFTS.map((shift, index) => ...)] up to the call. *)
Definition startTask (source : string) (index : nat) (shift : Z) : Task :=
  {| task_label := labelAt index;
     task_source := source;
     task_prompt := getTransformPrompt shift;
     task_state := PendingP |}.

(** [{ ...prev, [label]: { status: 'done', url: newImageUrl } }] *)
Definition onFulfilled (l newImageUrl : string)
    (prev : gmap string GeneratedImage) : gmap string GeneratedImage :=
  <[l := {| status := Done; url := Some newImageUrl; error := None |}]> prev.

(** [err instanceof Error ? err.message : 'Generation failed.'] *)
Definition errorMessage (err : Thrown) : string :=
  match err with
  | ErrorObject message => message
  | OtherValue => "Generation failed."
  end.

(** [{ ...prev, [label]: { status: 'error', error: errorMessage } }] *)
Definition onRejected (l : string) (err : Thrown)
    (prev : gmap string GeneratedImage) : gmap string GeneratedImage :=
  <[l := {| status := Error; url := None; error := Some (errorMessage err) |}]> prev.

(** The entry written for a label by the outcome of its own call. *)
Definition imageOf (o : Outcome) : GeneratedImage :=
  match o with
  | Resolves newImageUrl => {| status := Done; url := Some newImageUrl; error := None |}
  | Rejects err => {| status := Error; url := None; error := Some (errorMessage err) |}
  end.

Definition settled (p : Promise) : bool :=
  match p with PendingP => false | _ => true end.

(** [Promise.allSettled(ps)]: pending until every input has settled, then
    fulfilled whatever the inputs settled with; it never rejects. *)
Definition allSettled (ps : list Promise) : Promise :=
  if forallb settled ps then FulfilledP else PendingP.

Definition falsy (s : option string) : bool := negb (truthy s).

(** The run left by [if (!sourceImage) return;]: an async function that
    returns at once fulfils its promise; nothing else has happened. *)
Definition returnedEarly (a : App) : Run :=
  {| app := a; generationPromises := []; console := []; handler := FulfilledP |}.

(** [handleGenerateClick], up to its [await]: the state is reset to one
    pending entry per label, one call is issued per shift, and the handler
    is suspended on [Promise.allSettled(generationPromises)]. *)
Definition handleGenerateClick (a : App) : Run :=
  match sourceImage a with
  | Some source =>
      if String.eqb source EmptyString then returnedEarly a
      else
        {| app := setGeneratedImages (fun _ => initialImages)
                    (setAppState generating a);
           generationPromises := imap (startTask source) TIME_SHIFTS;
           console := [];
           handler := PendingP |}
  | None => returnedEarly a
  end.

Definition withState (p : Promise) (t : Task) : Task :=
  {| task_label := task_label t; task_source := task_source t;
     task_prompt := task_prompt t; task_state := p |}.

(** The call of task [index] settles with [o].  On fulfilment the [.then]
    callback runs and the [.catch] is passed over; on rejection the [.then]
    is passed over and the [.catch] callback runs.  Either callback returns
    normally, so the promise of the chain is fulfilled.  A task settles at
    most once. *)
Definition settle (index : nat) (o : Outcome) (r : Run) : option Run :=
  match generationPromises r !! index with
  | Some t =>
      if settled (task_state t) then None
      else
        let l := task_label t in
        let promises := <[index := withState FulfilledP t]> (generationPromises r) in
        Some
          match o with
          | Resolves newImageUrl =>
              {| app := setGeneratedImages (onFulfilled l newImageUrl) (app r);
                 generationPromises := promises;
                 console := console r;
                 handler := handler r |}
          | Rejects err =>
              {| app := setGeneratedImages (onRejected l err) (app r);
                 generationPromises := promises;
                 console := console r ++ ["Failed to generate image for " +:+ l +:+ ":"];
                 handler := handler r |}
          end
  | None => None
  end.

(** The handler resumes after [await Promise.allSettled(generationPromises)]:
    a fulfilled operand lets it run [setAppState('results-shown')] and
    return; a rejected operand would be thrown out of the handler. *)
Definition resume (r : Run) : option Run :=
  match handler r with
  | PendingP =>
      match allSettled (task_state <$> generationPromises r) with
      | PendingP => None
      | FulfilledP =>
          Some {| app := setAppState results_shown (app r);
                  generationPromises := generationPromises r;
                  console := console r;
                  handler := FulfilledP |}
      | RejectedP reason =>
          Some {| app := app r;
                  generationPromises := generationPromises r;
                  console := console r;
                  handler := RejectedP reason |}
      end
  | _ => None
  end.

(** What the event loop can deliver to a run. *)
Inductive Event : Set :=
| Settle (index : nat) (o : Outcome)
| Resume.

Definition step (r : Run) (e : Event) : option Run :=
  match e with
  | Settle index o => settle index o r
  | Resume => resume r
  end.

Fixpoint exec (r : Run) (events : list Event) : option Run :=
  match events with
  | [] => Some r
  | e :: events => step r e ≫= fun r' => exec r' events
  end.

(** A whole batch: the click, the calls settling in the order and with the
    outcomes of [schedule], then the handler resuming. *)
Definition toEvents (schedule : list (nat * Outcome)) : list Event :=
  (fun s => Settle s.1 s.2) <$> schedule.

Definition runBatch (a : App) (schedule : list (nat * Outcome)) : option Run :=
  exec (handleGenerateClick a) (toEvents schedule ++ [Resume]).

(** The outcome delivered to task [index] by a list of events. *)
Fixpoint outcomeOf (index : nat) (events : list Event) : option Outcome :=
  match events with
  | [] => None
  | Settle i o :: events =>
      if decide (i = index) then Some o else outcomeOf index events
  | Resume :: events => outcomeOf index events
  end.

(** The same events with the tasks of [failing] forced to reject. *)
Definition forceFailure (failing : list nat) (err : Thrown)
    (events : list Event) : list Event :=
  (fun e =>
     match e with
     | Settle i o => if bool_decide (i ∈ failing) then Settle i (Rejects err) else e
     | Resume => Resume
     end) <$> events.

Definition terminal (s : ImageStatus) : Prop := s = Done ∨ s = Error.

(** The fields an entry carries, by status, as the object literals of the
    handler write them: a pending entry has neither field, a done entry has
    [url] and no [error], an entry in error has [error] and no [url].  A
    field that is present may hold the empty string. *)
Definition shaped (image : GeneratedImage) : Prop :=
  match status image with
  | Pending => url image = None ∧ error image = None
  | Done => is_Some (url image) ∧ error image = None
  | Error => url image = None ∧ is_Some (error image)
  end.

(** The invariant in the words of the specification, a field counting as
    populated when the code reads it as one: present and not the empty
    string ([image.url] in the filter of the morpher and of the download). *)
Definition wellFormed (image : GeneratedImage) : Prop :=
  match status image with
  | Pending => truthy (url image) = false ∧ truthy (error image) = false
  | Done => truthy (url image) = true ∧ truthy (error image) = false
  | Error => truthy (url image) = false ∧ truthy (error image) = true
  end.

(** A source the handler accepts. *)
Definition present (a : App) : Prop := truthy (sourceImage a) = true.

(** The invariant of a run in progress: the tasks are those of the labels,
    in order; the mapping has exactly the labels; the entry of a task that
    has not settled is the pending one and the entry of a settled task is
    terminal and shaped by its status; no promise is ever rejected; the handler has
    returned only if every task has settled. *)
Definition Inv (r : Run) : Prop :=
  task_label <$> generationPromises r = TIME_LABELS /\
  (forall l, is_Some (generatedImages (app r) !! l) <-> l ∈ TIME_LABELS) /\
  (forall i t, generationPromises r !! i = Some t ->
     match task_state t with
     | PendingP => generatedImages (app r) !! task_label t = Some pendingImage
     | FulfilledP =>
         exists image,
           generatedImages (app r) !! task_label t = Some image /\
           terminal (status image) /\ shaped image
     | RejectedP _ => False
     end) /\
  match handler r with
  | PendingP => appState (app r) = generating
  | FulfilledP =>
      appState (app r) = results_shown /\
      Forall (fun t => task_state t = FulfilledP) (generationPromises r)
  | RejectedP _ => False
  end.

(** ** The rest of the morpher ([src/components/ImageMorpher.tsx]) *)

(** The suffix of a string after its first [n] characters. *)
Fixpoint dropChars (n : nat) (s : string) : string :=
  match n, s with
  | O, _ => s
  | S n, String _ s => dropChars n s
  | S _, EmptyString => EmptyString
  end.

(** [s.replace(pattern, replacement)] for a string pattern and a replacement
    without [$]: the first occurrence of the pattern, if any, is replaced. *)
Fixpoint replaceFirst (pattern replacement s : string) : string :=
  if String.prefix pattern s
  then replacement +:+ dropChars (String.length pattern) s
  else match s with
       | EmptyString => EmptyString
       | String c s => String c (replaceFirst pattern replacement s)
       end.

(** [label.replace(' years', 'y')], the caption under the slider. *)
Definition decadeLabel (l : string) : string := replaceFirst " years" "y" l.

(** One rendered [<img>]: its [key], [src], [alt], [style.opacity] and
    [aria-hidden].  [src] is [image.url!], kept as the optional field. *)
Record Img : Type := mkImg {
  img_key : string;
  img_src : option string;
  img_alt : string;
  img_opacity : Q;
  img_ariaHidden : bool
}.

(** What the component returns: the apology when nothing succeeded, or the
    images, the range input and the captions. *)
Inductive MorpherView : Type :=
| NoImages
| Morpher (imgs : list Img) (min max value : Q) (captions : list string).

Definition renderImg (sliderValue : Q) (index : nat) (image : Entry) : Img :=
  {| img_key := label image;
     img_src := entry_url image;
     img_alt := "Generated image for " +:+ label image;
     img_opacity := calculateOpacity (ofIndex index) sliderValue;
     img_ariaHidden := Qeq_bool (calculateOpacity (ofIndex index) sliderValue) 0 |}.

Definition render (images : gmap string GeneratedImage) (labels : list string)
    (sliderValue : Q) : MorpherView :=
  let successful := successfulImages images labels in
  if (length successful =? 0)%nat then NoImages
  else Morpher (imap (renderImg sliderValue) successful)
               sliderMin (sliderMax images labels) sliderValue
               ((fun image => decadeLabel (label image)) <$> successful).

(** The sum of a list of weights. *)
Definition Qsum (ws : list Q) : Q := foldr Qplus 0 ws.

(** ** The rest of the component ([src/App.tsx]) *)

(** The scaling of [resizeImage]: the width and height given to the canvas
    for an image of the given natural size. *)
Definition MAX_DIMENSION : Q := 1024.

Definition resizeDimensions (width height : Q) : Q * Q :=
  if Qlt_le_dec height width then
    if Qlt_le_dec MAX_DIMENSION width
    then (MAX_DIMENSION, height * (MAX_DIMENSION / width))
    else (width, height)
  else
    if Qlt_le_dec MAX_DIMENSION height
    then (width * (MAX_DIMENSION / height), MAX_DIMENSION)
    else (width, height).

Definition setSourceImage (s : option string) (a : App) : App :=
  {| sourceImage := s; generatedImages := generatedImages a;
     sliderValue := sliderValue a; appState := appState a |}.

Definition setSliderValue (v : Q) (a : App) : App :=
  {| sourceImage := sourceImage a; generatedImages := generatedImages a;
     sliderValue := v; appState := appState a |}.

(** The state changes shared by [handleFileChange], once the file is
    resized, and [handleCapture]: [setSourceImage(dataUrl)] then
    [setAppState('confirm-image')]. *)
Definition imageChosen (dataUrl : string) (a : App) : App :=
  setAppState confirm_image (setSourceImage (Some dataUrl) a).

(** [handleReset] *)
Definition handleReset (a : App) : App :=
  setSliderValue 2
    (setAppState select_image
       (setGeneratedImages (fun _ => ∅) (setSourceImage None a))).

(** [Math.round]: the nearest integer, a half rounding up. *)
Definition mathRound (x : Q) : Z := Qfloor (x + (1 # 2)).

(** [array[k]] for an integral number [k]: [undefined] out of range. *)
Definition atIndex {A : Type} (l : list A) (k : Z) : option A :=
  if (k <? 0)%Z then None else l !! Z.to_nat k.

(** One element of [TIME_LABELS.map(label => ({ label,
    ...generatedImages[label] }))]: the label and the fields of the entry,
    if there is one. *)
Record Spread : Set := mkSpread {
  sp_label : string;
  sp_status : option ImageStatus;
  sp_url : option string;
  sp_error : option string
}.

Definition spreadOf (images : gmap string GeneratedImage) (l : string) : Spread :=
  {| sp_label := l;
     sp_status := status <$> images !! l;
     sp_url := images !! l ≫= url;
     sp_error := images !! l ≫= error |}.

(** The anchor that is clicked: its [href] and its [download] name. *)
Record Link : Set := mkLink {
  link_href : string;
  link_download : string
}.

Definition downloadable (a : App) : list Spread :=
  List.filter
    (fun img => bool_decide (sp_status img = Some Done) && truthy (sp_url img))
    (spreadOf (generatedImages a) <$> TIME_LABELS).

(** [handleDownloadCurrentImage]: the link that is clicked, if any. *)
Definition handleDownloadCurrentImage (a : App) : option Link :=
  let successful := downloadable a in
  if (length successful =? 0)%nat then None
  else
    let closestIndex := mathRound (sliderValue a) in
    match atIndex successful closestIndex with
    | Some imageToDownload =>
        match sp_url imageToDownload with
        | Some u =>
            if truthy (Some u)
            then Some {| link_href := u;
                         link_download :=
                           "past-forward-"
                           +:+ replaceFirst " " EmptyString (sp_label imageToDownload)
                           +:+ ".jpg" |}
            else None
        | None => None
        end
    | None => None
    end.

(** The buttons the component offers in a state.  The camera overlay has
    its own two buttons and is left out. *)
Inductive Button : Set :=
  TakePhoto | UploadPhoto | Generate | Back | DownloadImage | StartOver.

Definition buttons (a : App) : list Button :=
  match appState a with
  | select_image => [TakePhoto; UploadPhoto]
  | confirm_image => if truthy (sourceImage a) then [Generate; Back] else []
  | generating => []
  | results_shown => [DownloadImage; StartOver]
  end.




(** The lines [console.error] writes for a list of events. *)
Definition failureLine (l : string) : string :=
  "Failed to generate image for " +:+ l +:+ ":".

Definition failureLines (events : list Event) : list string :=
  omap (fun e =>
          match e with
          | Settle i (Rejects _) => Some (failureLine (labelAt i))
          | _ => None
          end) events.

(** A string without a space. *)
Fixpoint noSpace (s : string) : bool :=
  match s with
  | EmptyString => true
  | String c s => negb (Ascii.eqb c Ascii.Space) && noSpace s
  end.

(** The sign and the digits of a label: what precedes the word years. *)
Definition signed (shift : Z) : string :=
  if (shift <? 0)%Z then pretty shift else "+" +:+ pretty shift.

(** ** Concrete inputs used by the examples *)

Definition demoSource : string := "data:image/jpeg;base64,AAAA".

(** The component after a photo was chosen. *)
Definition demoApp : App :=
  {| sourceImage := Some demoSource; generatedImages := ∅; sliderValue := 2;
     appState := confirm_image |}.

Definition demoUrl (n : nat) : string := "data:image/png;base64," +:+ pretty n.

(** Tasks complete in the order 5, 0, 3, 1, 4, 2; tasks 1 and 4 fail. *)
Definition demoSchedule : list (nat * Outcome) :=
  [ (5, Resolves (demoUrl 5)); (0, Resolves (demoUrl 0));
    (3, Resolves (demoUrl 3)); (1, Rejects (ErrorObject "quota exceeded"));
    (4, Rejects OtherValue); (2, Resolves (demoUrl 2)) ]%nat.

(** Only task 2 succeeds. *)
Definition loneSchedule : list (nat * Outcome) :=
  [ (0, Rejects OtherValue); (2, Resolves (demoUrl 2));
    (1, Rejects OtherValue); (3, Rejects OtherValue);
    (4, Rejects OtherValue); (5, Rejects OtherValue) ]%nat.

(** Every task fails. *)
Definition allFailSchedule : list (nat * Outcome) :=
  [ (3, Rejects OtherValue); (0, Rejects (ErrorObject "network error"));
    (1, Rejects OtherValue); (5, Rejects OtherValue);
    (4, Rejects OtherValue); (2, Rejects OtherValue) ]%nat.

(** Every task succeeds, task 0 with an empty url. *)
Definition emptyUrlSchedule : list (nat * Outcome) :=
  [ (0, Resolves EmptyString); (1, Resolves (demoUrl 1));
    (2, Resolves (demoUrl 2)); (3, Resolves (demoUrl 3));
    (4, Resolves (demoUrl 4)); (5, Resolves (demoUrl 5)) ]%nat.

(** The same outcomes as [demoSchedule], completing in index order. *)
Definition demoScheduleInOrder : list (nat * Outcome) :=
  [ (0, Resolves (demoUrl 0)); (1, Rejects (ErrorObject "quota exceeded"));
    (2, Resolves (demoUrl 2)); (3, Resolves (demoUrl 3));
    (4, Rejects OtherValue); (5, Resolves (demoUrl 5)) ]%nat.

Definition demoEvents : list Event := toEvents demoSchedule ++ [Resume].

(** The run at the end of [demoSchedule], and half way through it. *)
Definition demoRun : Run :=
  default (returnedEarly demoApp) (exec (handleGenerateClick demoApp) demoEvents).

Definition demoPrefix : list Event := toEvents (take 3 demoSchedule).

Definition demoMidRun : Run :=
  default (returnedEarly demoApp) (exec (handleGenerateClick demoApp) demoPrefix).

Definition finalImages (a : App) (schedule : list (nat * Outcome))
    : gmap string GeneratedImage :=
  from_option (fun r => generatedImages (app r)) ∅ (runBatch a schedule).

(** ** Evaluations *)

Example TIME_LABELS_value :
  TIME_LABELS = ["-75 years"; "-50 years"; "-25 years"; "+25 years"; "+50 years"; "+75 years"].
Proof. reflexivity. Qed.

Example calculateOpacity_mid : calculateOpacity 0 (1 # 2) == 1 # 2.
Proof. reflexivity. Qed.

Example calculateOpacity_far : calculateOpacity (ofIndex 3) (3 # 2) == 0.
Proof. reflexivity. Qed.

(** Six tasks of which the second and the fifth fail: four images remain,
    in the order of the labels, and at cursor 1.5 the second and the third
    are drawn half opaque. *)
Example demo_successful :
  label <$> successfulImages (finalImages demoApp demoSchedule) TIME_LABELS
  = ["-75 years"; "-25 years"; "+25 years"; "+75 years"].
Proof. vm_compute. reflexivity. Qed.

Example demo_opacities :
  opacities (finalImages demoApp demoSchedule) TIME_LABELS (3 # 2)
  = [0; 1 # 2; 1 # 2; 0].
Proof. vm_compute. reflexivity. Qed.

Example lone_opacities :
  opacities (finalImages demoApp loneSchedule) TIME_LABELS (1 # 2) = [1 # 2].
Proof. vm_compute. reflexivity. Qed.

(** A batch in which every call fails still ends, with nothing to draw. *)
Example all_fail_completes :
  (handler <$> runBatch demoApp allFailSchedule) = Some FulfilledP /\
  ((fun r => appState (app r)) <$> runBatch demoApp allFailSchedule)
    = Some results_shown /\
  successfulImages (finalImages demoApp allFailSchedule) TIME_LABELS = [] /\
  finalImages demoApp allFailSchedule !! "-50 years"
    = Some {| status := Error; url := None; error := Some "Generation failed." |}.
Proof. repeat split; vm_compute; reflexivity. Qed.

(** The handler cannot resume while a call is outstanding, and a call does
    not settle twice. *)
Example no_early_resume :
  exec (handleGenerateClick demoApp)
       (toEvents (take 5 demoSchedule) ++ [Resume]) = None.
Proof. vm_compute. reflexivity. Qed.

Example no_double_settle :
  exec (handleGenerateClick demoApp)
       [Settle 1 (Resolves (demoUrl 1)); Settle 1 (Rejects OtherValue)] = None.
Proof. vm_compute. reflexivity. Qed.

(** Without a source nothing is started. *)
Example no_source_no_batch :
  handleGenerateClick initialApp = returnedEarly initialApp.
Proof. reflexivity. Qed.

(** ** Interpolation *)

Lemma distance_nonneg (index cursor : Q) : 0 <= Qabs (cursor - index).
Proof. apply Qabs_nonneg. Qed.

Lemma calculateOpacity_near (index cursor : Q) :
  Qabs (cursor - index) <= 1 ->
  calculateOpacity index cursor = 1 - Qabs (cursor - index).
Proof.
  intros H. unfold calculateOpacity.
  apply Qle_bool_iff in H. cbv zeta. now rewrite H.
Qed.

Lemma calculateOpacity_beyond (index cursor : Q) :
  1 < Qabs (cursor - index) ->
  calculateOpacity index cursor = 0.
Proof.
  intros H. unfold calculateOpacity. cbv zeta.
  destruct (Qle_bool (Qabs (cursor - index)) 1) eqn:E; [|reflexivity].
  apply Qle_bool_iff in E. lra.
Qed.

Lemma calculateOpacity_cases (index cursor : Q) :
  (Qabs (cursor - index) <= 1 /\
   calculateOpacity index cursor = 1 - Qabs (cursor - index)) \/
  (1 < Qabs (cursor - index) /\ calculateOpacity index cursor = 0).
Proof.
  destruct (Qlt_le_dec 1 (Qabs (cursor - index))) as [H|H].
  - right. split; [exact H | now apply calculateOpacity_beyond].
  - left. split; [exact H | now apply calculateOpacity_near].
Qed.

Lemma calculateOpacity_max (index cursor : Q) :
  calculateOpacity index cursor == Qmax 0 (1 - Qabs (cursor - index)).
Proof.
  destruct (calculateOpacity_cases index cursor) as [[H ->]|[H ->]].
  - symmetry. apply Q.max_r. lra.
  - symmetry. apply Q.max_l. lra.
Qed.

Lemma calculateOpacity_range (index cursor : Q) :
  0 <= calculateOpacity index cursor <= 1.
Proof.
  pose proof (distance_nonneg index cursor).
  destruct (calculateOpacity_cases index cursor) as [[H' ->]|[H' ->]]; lra.
Qed.

Lemma Qabs_pos_eq (x : Q) : 0 <= x -> Qabs x == x.
Proof. intros. now apply Qabs_pos. Qed.

Lemma Qabs_neg_eq (x : Q) : x <= 0 -> Qabs x == - x.
Proof. intros. now apply Qabs_neg. Qed.

Lemma ofIndex_S (i : nat) : ofIndex (S i) == ofIndex i + 1.
Proof.
  unfold ofIndex. rewrite Nat2Z.inj_succ, <- Z.add_1_r, inject_Z_plus.
  reflexivity.
Qed.

Lemma ofIndex_le (i j : nat) : (i <= j)%nat -> ofIndex i <= ofIndex j.
Proof. intros H. unfold ofIndex. rewrite <- Zle_Qle. lia. Qed.

Lemma calculateOpacity_left (i : nat) (cursor : Q) :
  ofIndex i <= cursor <= ofIndex i + 1 ->
  calculateOpacity (ofIndex i) cursor == 1 - (cursor - ofIndex i).
Proof.
  intros H.
  assert (Ha : Qabs (cursor - ofIndex i) == cursor - ofIndex i)
    by (apply Qabs_pos_eq; lra).
  rewrite calculateOpacity_near; rewrite Ha; lra.
Qed.

Lemma calculateOpacity_right (i : nat) (cursor : Q) :
  ofIndex i - 1 <= cursor <= ofIndex i ->
  calculateOpacity (ofIndex i) cursor == 1 - (ofIndex i - cursor).
Proof.
  intros H.
  assert (Ha : Qabs (cursor - ofIndex i) == - (cursor - ofIndex i))
    by (apply Qabs_neg_eq; lra).
  rewrite calculateOpacity_near; rewrite Ha; lra.
Qed.

Lemma calculateOpacity_outside (j : nat) (cursor : Q) :
  cursor <= ofIndex j - 1 \/ ofIndex j + 1 <= cursor ->
  calculateOpacity (ofIndex j) cursor == 0.
Proof.
  intros H.
  destruct (calculateOpacity_cases (ofIndex j) cursor) as [[H' ->]|[H' ->]];
    [|reflexivity].
  destruct H as [H|H].
  - rewrite Qabs_neg_eq in *; lra.
  - rewrite Qabs_pos_eq in *; lra.
Qed.


(** ** The batch *)

Lemma TIME_LABELS_NoDup : NoDup TIME_LABELS.
Proof. apply (bool_decide_unpack _). vm_compute. exact I. Qed.

Lemma TIME_LABELS_length : length TIME_LABELS = length TIME_SHIFTS.
Proof. reflexivity. Qed.

Lemma present_source (a : App) :
  present a ->
  exists source, sourceImage a = Some source /\
                 String.eqb source EmptyString = false.
Proof.
  unfold present, truthy. destruct (sourceImage a) as [source|]; [|discriminate].
  intros H. exists source. split; [reflexivity|].
  now apply negb_true_iff in H.
Qed.

(** The run a click starts when a source is present. *)
Lemma handleGenerateClick_present (a : App) :
  present a ->
  exists source,
    sourceImage a = Some source /\
    handleGenerateClick a =
      {| app := setGeneratedImages (fun _ => initialImages)
                  (setAppState generating a);
         generationPromises := imap (startTask source) TIME_SHIFTS;
         console := [];
         handler := PendingP |}.
Proof.
  intros (source & Hs & He)%present_source. exists source.
  split; [exact Hs|]. unfold handleGenerateClick. now rewrite Hs, He.
Qed.

Lemma handleGenerateClick_absent (a : App) :
  falsy (sourceImage a) = true -> handleGenerateClick a = returnedEarly a.
Proof.
  unfold falsy, truthy, handleGenerateClick.
  destruct (sourceImage a) as [source|]; [|reflexivity].
  intros H. apply negb_true_iff, negb_false_iff in H. now rewrite H.
Qed.

Lemma initialImages_lookup (l : string) :
  initialImages !! l = if decide (l ∈ TIME_LABELS) then Some pendingImage else None.
Proof.
  unfold initialImages.
  assert (G : forall (ls : list string) (m : gmap string GeneratedImage),
            foldl (fun images l0 => <[l0 := pendingImage]> images) m ls !! l
            = if decide (l ∈ ls) then Some pendingImage else m !! l).
  { induction ls as [|l0 ls IH]; intros m; simpl.
    - destruct (decide (l ∈ [])) as [H|H]; [|reflexivity].
      now apply not_elem_of_nil in H.
    - rewrite IH. destruct (decide (l ∈ l0 :: ls)) as [H|H].
      + apply elem_of_cons in H as [->|H].
        * destruct (decide (l0 ∈ ls)); [reflexivity | apply lookup_insert_eq].
        * now rewrite decide_True.
      + apply not_elem_of_cons in H as [Hne H].
        rewrite decide_False by exact H. now rewrite lookup_insert_ne. }
  rewrite G. destruct (decide (l ∈ TIME_LABELS)); [reflexivity|apply lookup_empty].
Qed.

Lemma startTask_labels (source : string) :
  task_label <$> imap (startTask source) TIME_SHIFTS = TIME_LABELS.
Proof. reflexivity. Qed.

(** *** What one step does *)

Lemma settle_inv (index : nat) (o : Outcome) (r r' : Run) :
  settle index o r = Some r' ->
  exists t,
    generationPromises r !! index = Some t /\
    task_state t = PendingP /\
    generatedImages (app r')
      = <[task_label t := imageOf o]> (generatedImages (app r)) /\
    generationPromises r'
      = <[index := withState FulfilledP t]> (generationPromises r) /\
    handler r' = handler r /\
    appState (app r') = appState (app r) /\
    sourceImage (app r') = sourceImage (app r) /\
    sliderValue (app r') = sliderValue (app r).
Proof.
  unfold settle. destruct (generationPromises r !! index) as [t|] eqn:Ht;
    [|discriminate].
  destruct (task_state t) eqn:Hst; simpl; try discriminate.
  intros [= <-]. exists t. split; [reflexivity|]. split; [exact Hst|].
  destruct o; simpl; repeat split; reflexivity.
Qed.

Lemma resume_inv (r r' : Run) :
  resume r = Some r' ->
  handler r = PendingP /\
  forallb settled (task_state <$> generationPromises r) = true /\
  handler r' = FulfilledP /\
  app r' = setAppState results_shown (app r) /\
  generationPromises r' = generationPromises r.
Proof.
  unfold resume, allSettled. destruct (handler r); try discriminate.
  destruct (forallb settled (task_state <$> generationPromises r));
    [|discriminate].
  intros [= <-]. repeat split; reflexivity.
Qed.

Lemma exec_cons_inv (r r' : Run) (e : Event) (events : list Event) :
  exec r (e :: events) = Some r' ->
  exists r1, step r e = Some r1 /\ exec r1 events = Some r'.
Proof.
  simpl. destruct (step r e) as [r1|]; simpl; [eauto | discriminate].
Qed.

Lemma exec_app (r : Run) (es1 es2 : list Event) :
  exec r (es1 ++ es2) = exec r es1 ≫= fun r1 => exec r1 es2.
Proof.
  revert r. induction es1 as [|e es1 IH]; intros r; simpl; [reflexivity|].
  destruct (step r e) as [r1|]; simpl; [apply IH|reflexivity].
Qed.

Lemma settle_labels (index : nat) (o : Outcome) (r r' : Run) :
  settle index o r = Some r' ->
  task_label <$> generationPromises r' = task_label <$> generationPromises r.
Proof.
  intros (t & Ht & _ & _ & -> & _)%settle_inv.
  rewrite list_fmap_insert. apply list_insert_id.
  rewrite list_lookup_fmap, Ht. reflexivity.
Qed.

Lemma step_labels (e : Event) (r r' : Run) :
  step r e = Some r' ->
  task_label <$> generationPromises r' = task_label <$> generationPromises r.
Proof.
  destruct e as [index o|]; simpl.
  - apply settle_labels.
  - intros (_ & _ & _ & _ & ->)%resume_inv. reflexivity.
Qed.

(** Two tasks of a run with distinct labels per position. *)
Lemma distinct_labels (r : Run) (i j : nat) (t u : Task) :
  NoDup (task_label <$> generationPromises r) ->
  generationPromises r !! i = Some t ->
  generationPromises r !! j = Some u ->
  i <> j -> task_label t <> task_label u.
Proof.
  intros Hnd Hi Hj Hne Heq. apply Hne.
  eapply NoDup_lookup; [exact Hnd| |].
  - rewrite list_lookup_fmap, Hi. reflexivity.
  - rewrite list_lookup_fmap, Hj. simpl. now rewrite Heq.
Qed.

(** *** The invariant *)

Lemma imageOf_terminal (o : Outcome) : terminal (status (imageOf o)).
Proof. destruct o; [left|right]; reflexivity. Qed.

Lemma imageOf_shaped (o : Outcome) : shaped (imageOf o).
Proof. destruct o; split; simpl; eauto. Qed.

Lemma Inv_settle (index : nat) (o : Outcome) (r r' : Run) :
  Inv r -> settle index o r = Some r' -> Inv r'.
Proof.
  intros (Hlab & Hdom & Htasks & Hh) Hs.
  pose proof (settle_labels _ _ _ _ Hs) as Hlab'.
  destruct (settle_inv _ _ _ _ Hs)
    as (t & Ht & Hst & Him & Hps & Hhd & Has & _ & _).
  assert (Hnd : NoDup (task_label <$> generationPromises r))
    by (rewrite Hlab; apply TIME_LABELS_NoDup).
  assert (Hin : task_label t ∈ TIME_LABELS).
  { rewrite <- Hlab. apply list_elem_of_fmap. exists t. split; [reflexivity|].
    apply list_elem_of_lookup. eauto. }
  split; [congruence|]. split; [|split].
  - intros l. rewrite Him. destruct (decide (l = task_label t)) as [->|Hne].
    + rewrite lookup_insert_eq. split; [intros _; exact Hin | eauto].
    + rewrite lookup_insert_ne by done. apply Hdom.
  - intros i u Hu. rewrite Hps in Hu. rewrite Him.
    destruct (decide (i = index)) as [->|Hne].
    + rewrite list_lookup_insert_eq in Hu by (eapply lookup_lt_Some; eauto).
      injection Hu as <-. simpl. rewrite lookup_insert_eq.
      exists (imageOf o). split; [reflexivity|].
      split; [apply imageOf_terminal | apply imageOf_shaped].
    + rewrite list_lookup_insert_ne in Hu by done.
      assert (Hl : task_label u <> task_label t)
        by (eapply distinct_labels; eauto).
      specialize (Htasks i u Hu).
      destruct (task_state u); try exact Htasks;
        rewrite lookup_insert_ne by done; exact Htasks.
  - rewrite Hhd, Has, Hps. destruct (handler r); try exact Hh.
    destruct Hh as [Ha Hall]. split; [exact Ha|].
    apply Forall_insert; [exact Hall | reflexivity].
Qed.

Lemma Inv_resume (r r' : Run) : Inv r -> resume r = Some r' -> Inv r'.
Proof.
  intros (Hlab & Hdom & Htasks & Hh) (Hp & Hall & Hf & Ha & Hps)%resume_inv.
  unfold Inv. rewrite Hps, Hf, Ha. simpl.
  split; [exact Hlab|]. split; [exact Hdom|]. split; [exact Htasks|].
  split; [reflexivity|].
  apply Forall_lookup. intros i t Ht. specialize (Htasks i t Ht).
  assert (Hs : settled (task_state t) = true).
  { rewrite forallb_forall in Hall. apply Hall.
    apply list_elem_of_In, list_elem_of_fmap. exists t.
    split; [reflexivity|]. apply list_elem_of_lookup. eauto. }
  destruct (task_state t); [discriminate | reflexivity | contradiction].
Qed.

Lemma Inv_step (e : Event) (r r' : Run) : Inv r -> step r e = Some r' -> Inv r'.
Proof.
  destruct e as [index o|]; simpl; [apply Inv_settle | apply Inv_resume].
Qed.

Lemma Inv_exec (events : list Event) (r r' : Run) :
  Inv r -> exec r events = Some r' -> Inv r'.
Proof.
  revert r. induction events as [|e events IH]; intros r HI; simpl.
  - intros [= <-]. exact HI.
  - intros (r1 & Hs & He)%exec_cons_inv.
    apply (IH r1); [eapply Inv_step; eauto | exact He].
Qed.

(** *** The entry of a label is decided by its own task *)

(** A settled task receives no further outcome. *)
Lemma exec_settled_no_outcome (events : list Event) (r r' : Run) (i : nat) (t : Task) :
  exec r events = Some r' ->
  generationPromises r !! i = Some t ->
  settled (task_state t) = true ->
  outcomeOf i events = None.
Proof.
  revert r t. induction events as [|e events IH]; intros r t He Ht Hs;
    [reflexivity|].
  apply exec_cons_inv in He as (r1 & Hstep & He).
  destruct e as [j o|]; simpl in *.
  - destruct (decide (j = i)) as [->|Hne].
    + destruct (settle_inv _ _ _ _ Hstep) as (u & Hu & Hst & _).
      rewrite Ht in Hu. injection Hu as <-. rewrite Hst in Hs. discriminate.
    + destruct (settle_inv _ _ _ _ Hstep) as (u & Hu & _ & _ & Hps & _).
      apply (IH r1 t He); [|exact Hs].
      rewrite Hps, list_lookup_insert_ne by done. exact Ht.
  - destruct (resume_inv _ _ Hstep) as (_ & _ & _ & _ & Hps).
    apply (IH r1 t He); [|exact Hs]. rewrite Hps. exact Ht.
Qed.

(** After any events, the entry of the label of task [i] is the image of
    the outcome delivered to task [i], or the entry it had if none was. *)
Lemma exec_lookup (events : list Event) (r r' : Run) (i : nat) (t : Task) :
  NoDup (task_label <$> generationPromises r) ->
  exec r events = Some r' ->
  generationPromises r !! i = Some t ->
  generatedImages (app r') !! task_label t =
    match outcomeOf i events with
    | Some o => Some (imageOf o)
    | None => generatedImages (app r) !! task_label t
    end.
Proof.
  revert r t. induction events as [|e events IH]; intros r t Hnd He Ht.
  - injection He as <-. reflexivity.
  - apply exec_cons_inv in He as (r1 & Hstep & He).
    pose proof (step_labels _ _ _ Hstep) as Hlab.
    assert (Hnd1 : NoDup (task_label <$> generationPromises r1))
      by (rewrite Hlab; exact Hnd).
    destruct e as [j o|]; simpl in Hstep |- *.
    + destruct (settle_inv _ _ _ _ Hstep) as (u & Hu & Hst & Him & Hps & _).
      destruct (decide (j = i)) as [->|Hne].
      * rewrite Ht in Hu. injection Hu as <-.
        assert (Ht1 : generationPromises r1 !! i = Some (withState FulfilledP t)).
        { rewrite Hps. apply list_lookup_insert_eq. eapply lookup_lt_Some; eauto. }
        pose proof (IH r1 (withState FulfilledP t) Hnd1 He Ht1) as HI.
        rewrite (exec_settled_no_outcome events r1 r' i _ He Ht1 eq_refl) in HI.
        simpl in HI. rewrite HI, Him. apply lookup_insert_eq.
      * assert (Ht1 : generationPromises r1 !! i = Some t)
          by (rewrite Hps, list_lookup_insert_ne by done; exact Ht).
        rewrite (IH r1 t Hnd1 He Ht1).
        destruct (outcomeOf i events); [reflexivity|].
        rewrite Him. apply lookup_insert_ne.
        exact (distinct_labels r j i u t Hnd Hu Ht Hne).
    + destruct (resume_inv _ _ Hstep) as (_ & _ & _ & Ha & Hps).
      assert (Ht1 : generationPromises r1 !! i = Some t)
        by (rewrite Hps; exact Ht).
      rewrite (IH r1 t Hnd1 He Ht1). rewrite Ha. reflexivity.
Qed.

(** The labels that are not those of tasks keep their entries. *)
Lemma exec_lookup_other (events : list Event) (r r' : Run) (l : string) :
  exec r events = Some r' ->
  l ∉ task_label <$> generationPromises r ->
  generatedImages (app r') !! l = generatedImages (app r) !! l.
Proof.
  revert r. induction events as [|e events IH]; intros r He Hl.
  - injection He as <-. reflexivity.
  - apply exec_cons_inv in He as (r1 & Hstep & He).
    pose proof (step_labels _ _ _ Hstep) as Hlab.
    rewrite (IH r1 He) by (rewrite Hlab; exact Hl).
    destruct e as [j o|]; simpl in Hstep.
    + destruct (settle_inv _ _ _ _ Hstep) as (u & Hu & _ & Him & _).
      rewrite Him. apply lookup_insert_ne. intros <-. apply Hl.
      apply list_elem_of_fmap. exists u. split; [reflexivity|].
      apply list_elem_of_lookup. eauto.
    + destruct (resume_inv _ _ Hstep) as (_ & _ & _ & -> & _). reflexivity.
Qed.

(** The task of a label in a started run. *)
Lemma started_task (source : string) (i : nat) (l : string) :
  TIME_LABELS !! i = Some l ->
  exists t, imap (startTask source) TIME_SHIFTS !! i = Some t /\ task_label t = l.
Proof.
  intros Hl. pose proof (startTask_labels source) as Hlab.
  rewrite <- Hlab, list_lookup_fmap in Hl.
  destruct (imap (startTask source) TIME_SHIFTS !! i) as [t|]; [|discriminate].
  injection Hl as Hl. eauto.
Qed.

(** *** Outcomes and events *)

Lemma outcomeOf_Some_in (i : nat) (o : Outcome) (events : list Event) :
  outcomeOf i events = Some o -> Settle i o ∈ events.
Proof.
  induction events as [|[j o'|] events IH]; simpl; [discriminate| |].
  - destruct (decide (j = i)) as [->|Hne].
    + intros [= ->]. apply list_elem_of_here.
    + intros H. apply list_elem_of_further, IH, H.
  - intros H. apply list_elem_of_further, IH, H.
Qed.

Lemma outcomeOf_None_notin (i : nat) (o : Outcome) (events : list Event) :
  outcomeOf i events = None -> Settle i o ∉ events.
Proof.
  induction events as [|[j o'|] events IH]; simpl.
  - intros _. apply not_elem_of_nil.
  - destruct (decide (j = i)) as [->|Hne]; [discriminate|].
    intros H. apply not_elem_of_cons. split; [congruence | apply IH, H].
  - intros H. apply not_elem_of_cons. split; [discriminate | apply IH, H].
Qed.

(** In an execution a task is delivered one outcome at most. *)
Lemma exec_outcome_unique (events : list Event) (r r' : Run) (i : nat) (o : Outcome) :
  exec r events = Some r' ->
  Settle i o ∈ events -> outcomeOf i events = Some o.
Proof.
  revert r. induction events as [|e events IH]; intros r He Hin.
  - now apply not_elem_of_nil in Hin.
  - apply exec_cons_inv in He as (r1 & Hstep & He).
    apply elem_of_cons in Hin as [<-|Hin].
    + simpl. now rewrite decide_True.
    + destruct e as [j o'|]; simpl; [|exact (IH r1 He Hin)].
      destruct (decide (j = i)) as [->|Hne]; [|exact (IH r1 He Hin)].
      exfalso. simpl in Hstep.
      destruct (settle_inv _ _ _ _ Hstep) as (t & Ht & _ & _ & Hps & _).
      assert (Ht1 : generationPromises r1 !! i = Some (withState FulfilledP t)).
      { rewrite Hps. apply list_lookup_insert_eq. eapply lookup_lt_Some; eauto. }
      pose proof (exec_settled_no_outcome events r1 r' i _ He Ht1 eq_refl) as Hn.
      exact (outcomeOf_None_notin i o events Hn Hin).
Qed.

(** Two executions of the same events in different orders deliver the same
    outcome to every task. *)
Lemma exec_outcome_perm (es1 es2 : list Event) (r r1 r2 : Run) (i : nat) :
  es1 ≡ₚ es2 ->
  exec r es1 = Some r1 -> exec r es2 = Some r2 ->
  outcomeOf i es1 = outcomeOf i es2.
Proof.
  intros Hperm H1 H2.
  destruct (outcomeOf i es1) as [o|] eqn:E1.
  - symmetry. apply (exec_outcome_unique es2 r r2 i o H2).
    rewrite <- Hperm. now apply outcomeOf_Some_in.
  - destruct (outcomeOf i es2) as [o|] eqn:E2; [|reflexivity].
    apply outcomeOf_Some_in in E2. rewrite <- Hperm in E2.
    rewrite (exec_outcome_unique es1 r r1 i o H1 E2) in E1. discriminate.
Qed.

Lemma toEvents_perm (s1 s2 : list (nat * Outcome)) :
  s1 ≡ₚ s2 -> toEvents s1 ++ [Resume] ≡ₚ toEvents s2 ++ [Resume].
Proof. intros H. unfold toEvents. now rewrite H. Qed.

(** *** Every complete schedule runs to the end *)

Lemma settle_pending (index : nat) (o : Outcome) (r : Run) (t : Task) :
  generationPromises r !! index = Some t ->
  task_state t = PendingP ->
  exists r', settle index o r = Some r'.
Proof.
  intros Ht Hst. unfold settle. rewrite Ht, Hst. simpl. eauto.
Qed.

Lemma exec_schedule (schedule : list (nat * Outcome)) (r : Run) :
  NoDup schedule.*1 ->
  (forall i, i ∈ schedule.*1 ->
     exists t, generationPromises r !! i = Some t /\ task_state t = PendingP) ->
  exists r',
    exec r (toEvents schedule) = Some r' /\
    handler r' = handler r /\
    appState (app r') = appState (app r) /\
    (forall i, i ∈ schedule.*1 ->
       exists t, generationPromises r' !! i = Some t /\ task_state t = FulfilledP) /\
    (forall i, i ∉ schedule.*1 ->
       generationPromises r' !! i = generationPromises r !! i).
Proof.
  revert r. induction schedule as [|[i o] rest IH]; intros r Hnd Hpend.
  - exists r. repeat split; try reflexivity.
    intros i Hi. now apply not_elem_of_nil in Hi.
  - simpl in Hnd. apply NoDup_cons in Hnd as [Hi Hnd].
    destruct (Hpend i) as (t & Ht & Hst); [apply list_elem_of_here|].
    destruct (settle_pending i o r t Ht Hst) as [r1 Hs].
    destruct (settle_inv _ _ _ _ Hs) as (t' & Ht' & _ & _ & Hps & Hh & Has & _).
    rewrite Ht in Ht'. injection Ht' as <-.
    destruct (IH r1 Hnd) as (r' & He & Hh' & Has' & Hful & Hsame).
    { intros j Hj. destruct (Hpend j) as (u & Hu & Hust);
        [now apply list_elem_of_further|].
      exists u. split; [|exact Hust].
      rewrite Hps. rewrite list_lookup_insert_ne; [exact Hu|].
      intros ->. contradiction. }
    exists r'. split; [simpl; rewrite Hs; exact He|].
    split; [congruence|]. split; [congruence|]. split.
    + intros j Hj. simpl in Hj. apply elem_of_cons in Hj as [->|Hj].
      * exists (withState FulfilledP t). split; [|reflexivity].
        rewrite (Hsame i Hi), Hps. apply list_lookup_insert_eq.
        eapply lookup_lt_Some; eauto.
      * apply Hful, Hj.
    + intros j Hj. simpl in Hj. apply not_elem_of_cons in Hj as [Hne Hj].
      rewrite (Hsame j Hj), Hps. now apply list_lookup_insert_ne.
Qed.

Lemma resume_ready (r : Run) :
  handler r = PendingP ->
  (forall i t, generationPromises r !! i = Some t -> task_state t = FulfilledP) ->
  resume r = Some {| app := setAppState results_shown (app r);
                     generationPromises := generationPromises r;
                     console := console r;
                     handler := FulfilledP |}.
Proof.
  intros Hh Hall. unfold resume, allSettled. rewrite Hh.
  replace (forallb settled (task_state <$> generationPromises r)) with true;
    [reflexivity|].
  symmetry. apply forallb_forall. intros p Hp.
  apply list_elem_of_In, list_elem_of_fmap in Hp as (t & -> & Ht).
  apply list_elem_of_lookup in Ht as [i Hi]. now rewrite (Hall i t Hi).
Qed.

(** *** Forcing tasks to fail *)

Lemma outcomeOf_forceFailure (failing : list nat) (err : Thrown)
    (i : nat) (events : list Event) :
  outcomeOf i (forceFailure failing err events) =
    if bool_decide (i ∈ failing)
    then (fun _ => Rejects err) <$> outcomeOf i events
    else outcomeOf i events.
Proof.
  induction events as [|[j o|] events IH]; simpl.
  - now destruct (bool_decide (i ∈ failing)).
  - destruct (decide (j = i)) as [->|Hne].
    + destruct (bool_decide (i ∈ failing)); simpl; now rewrite decide_True.
    + destruct (bool_decide (j ∈ failing)); simpl;
        now rewrite decide_False.
  - exact IH.
Qed.

(** Whether an execution goes through does not depend on the outcomes. *)
Lemma exec_forceFailure (failing : list nat) (err : Thrown)
    (events : list Event) (r1 r2 r1' : Run) :
  generationPromises r1 = generationPromises r2 ->
  handler r1 = handler r2 ->
  exec r1 events = Some r1' ->
  exists r2', exec r2 (forceFailure failing err events) = Some r2'.
Proof.
  revert r1 r2. induction events as [|e events IH]; intros r1 r2 Hps Hh He.
  - simpl. eauto.
  - apply exec_cons_inv in He as (r1a & Hstep & He).
    destruct e as [j o|]; simpl in Hstep.
    + destruct (settle_inv _ _ _ _ Hstep) as (t & Ht & Hst & _ & Hps1 & Hh1 & _).
      rewrite Hps in Ht.
      assert (G : forall o', exists r2a,
                   settle j o' r2 = Some r2a /\
                   generationPromises r1a = generationPromises r2a /\
                   handler r1a = handler r2a).
      { intros o'. destruct (settle_pending j o' r2 t Ht Hst) as [r2a Hs2].
        exists r2a. split; [exact Hs2|].
        destruct (settle_inv _ _ _ _ Hs2) as (t' & Ht' & _ & _ & Hps2 & Hh2 & _).
        rewrite Ht in Ht'. injection Ht' as <-. split; congruence. }
      simpl. destruct (bool_decide (j ∈ failing)).
      * destruct (G (Rejects err)) as (r2a & Hs2 & Hpa & Hha).
        simpl. rewrite Hs2. simpl. exact (IH r1a r2a Hpa Hha He).
      * destruct (G o) as (r2a & Hs2 & Hpa & Hha).
        simpl. rewrite Hs2. simpl. exact (IH r1a r2a Hpa Hha He).
    + destruct (resume_inv _ _ Hstep) as (Hp1 & Hall & Hf & _ & Hps1).
      assert (Hr : resume r2 = Some {| app := setAppState results_shown (app r2);
                                       generationPromises := generationPromises r2;
                                       console := console r2;
                                       handler := FulfilledP |}).
      { unfold resume, allSettled. now rewrite <- Hh, Hp1, <- Hps, Hall. }
      simpl. rewrite Hr. simpl.
      apply (IH r1a); [simpl; congruence | simpl; congruence | exact He].
Qed.

(** *** A batch started by a click *)

Section Started.

Variable a : App.
Hypothesis Hpresent : present a.

Lemma Inv_start : Inv (handleGenerateClick a).
Proof.
  destruct (handleGenerateClick_present a Hpresent) as (source & _ & ->).
  split; [apply startTask_labels|].
  cbn [app generationPromises handler generatedImages setGeneratedImages
       setAppState appState].
  split; [|split; [|reflexivity]].
  - intros l. rewrite initialImages_lookup.
    destruct (decide (l ∈ TIME_LABELS)) as [H|H].
    + split; [intros _; exact H | intros _; eauto].
    + split; [intros [x Hx]; discriminate | intros H'; contradiction].
  - intros i t Ht. rewrite list_lookup_imap in Ht.
    destruct (TIME_SHIFTS !! i) as [shift|] eqn:Hs; [|discriminate].
    simpl in Ht. injection Ht as <-. simpl.
    rewrite initialImages_lookup. unfold labelAt.
    apply lookup_lt_Some in Hs. rewrite <- TIME_LABELS_length in Hs.
    destruct (lookup_lt_is_Some_2 TIME_LABELS i Hs) as [l Hl].
    rewrite Hl. simpl. rewrite decide_True; [reflexivity|].
    apply list_elem_of_lookup. eauto.
Qed.

(** Every state reached from a click with a source satisfies the invariant. *)
Lemma Inv_reachable (events : list Event) (r : Run) :
  exec (handleGenerateClick a) events = Some r -> Inv r.
Proof. apply Inv_exec, Inv_start. Qed.

(** From a click: the entry of label [i] is pending until task [i] settles,
    and then is the image of its outcome. *)
Lemma batch_lookup (events : list Event) (r : Run) (i : nat) (l : string) :
  exec (handleGenerateClick a) events = Some r ->
  TIME_LABELS !! i = Some l ->
  generatedImages (app r) !! l =
    Some (from_option imageOf pendingImage (outcomeOf i events)).
Proof.
  intros He Hl.
  destruct (handleGenerateClick_present a Hpresent) as (source & _ & Hstart).
  destruct (started_task source i l Hl) as (t & Ht & <-).
  assert (Hps : generationPromises (handleGenerateClick a)
                = imap (startTask source) TIME_SHIFTS) by now rewrite Hstart.
  assert (Him : generatedImages (app (handleGenerateClick a)) = initialImages)
    by now rewrite Hstart.
  assert (Hnd : NoDup (task_label <$> generationPromises (handleGenerateClick a)))
    by (rewrite Hps, startTask_labels; apply TIME_LABELS_NoDup).
  rewrite <- Hps in Ht.
  rewrite (exec_lookup events (handleGenerateClick a) r i t Hnd He Ht).
  destruct (outcomeOf i events); [reflexivity|]. simpl.
  rewrite Him, initialImages_lookup, decide_True; [reflexivity|].
  apply list_elem_of_lookup. eauto.
Qed.

(** The mapping left by a batch does not depend on the completion order. *)
Lemma batch_images_perm (es1 es2 : list Event) (r1 r2 : Run) :
  es1 ≡ₚ es2 ->
  exec (handleGenerateClick a) es1 = Some r1 ->
  exec (handleGenerateClick a) es2 = Some r2 ->
  generatedImages (app r1) = generatedImages (app r2).
Proof.
  intros Hperm H1 H2. apply map_eq. intros l.
  destruct (decide (l ∈ TIME_LABELS)) as [Hin|Hnin].
  - apply list_elem_of_lookup in Hin as [i Hi].
    rewrite (batch_lookup es1 r1 i l H1 Hi).
    rewrite (batch_lookup es2 r2 i l H2 Hi).
    now rewrite (exec_outcome_perm es1 es2 _ r1 r2 i Hperm H1 H2).
  - destruct (Inv_reachable es1 r1 H1) as (_ & Hd1 & _).
    destruct (Inv_reachable es2 r2 H2) as (_ & Hd2 & _).
    destruct (generatedImages (app r1) !! l) as [x|] eqn:E1.
    { exfalso. apply Hnin, Hd1. eauto. }
    destruct (generatedImages (app r2) !! l) as [y|] eqn:E2; [|reflexivity].
    exfalso. apply Hnin, Hd2. eauto.
Qed.

(** A schedule that settles every task once, in any order and with any
    outcomes, takes the batch to the end. *)
Lemma batch_completes (schedule : list (nat * Outcome)) :
  schedule.*1 ≡ₚ seq 0 (length TIME_SHIFTS) ->
  exists r, runBatch a schedule = Some r /\
            handler r = FulfilledP /\
            appState (app r) = results_shown.
Proof.
  intros Hperm.
  destruct (handleGenerateClick_present a Hpresent) as (source & _ & Hstart).
  assert (Hps : generationPromises (handleGenerateClick a)
                = imap (startTask source) TIME_SHIFTS) by now rewrite Hstart.
  assert (Hh : handler (handleGenerateClick a) = PendingP) by now rewrite Hstart.
  destruct (exec_schedule schedule (handleGenerateClick a))
    as (r1 & He & Hh1 & _ & Hful & Hsame).
  { rewrite Hperm. apply NoDup_seq. }
  { intros i Hi. rewrite Hperm in Hi. apply elem_of_seq in Hi.
    rewrite Hps, list_lookup_imap.
    destruct (lookup_lt_is_Some_2 TIME_SHIFTS i) as [shift Hs]; [lia|].
    rewrite Hs. simpl. eauto. }
  assert (Hall : forall i t, generationPromises r1 !! i = Some t ->
                             task_state t = FulfilledP).
  { intros i t Ht. destruct (decide (i ∈ schedule.*1)) as [Hi|Hi].
    - destruct (Hful i Hi) as (u & Hu & Hust). congruence.
    - rewrite (Hsame i Hi), Hps in Ht. apply lookup_lt_Some in Ht.
      rewrite length_imap in Ht. exfalso. apply Hi. rewrite Hperm.
      apply elem_of_seq. lia. }
  eexists. split.
  - unfold runBatch. rewrite exec_app, He. simpl.
    rewrite (resume_ready r1) by (congruence || exact Hall). reflexivity.
  - split; reflexivity.
Qed.

End Started.

(** ** The successful images *)

Lemma filter_fmap_comm {A B : Type} (p : B -> bool) (f : A -> B) (l : list A) :
  List.filter p (f <$> l) = f <$> List.filter (fun x => p (f x)) l.
Proof.
  induction l as [|x l IH]; [reflexivity|].
  rewrite fmap_cons. cbn [List.filter]. rewrite IH.
  now destruct (p (f x)).
Qed.

Lemma filter_ext_bool {A : Type} (p q : A -> bool) (l : list A) :
  (forall x, x ∈ l -> p x = q x) -> List.filter p l = List.filter q l.
Proof.
  induction l as [|x l IH]; intros H; simpl; [reflexivity|].
  rewrite (H x) by apply list_elem_of_here.
  rewrite IH; [reflexivity|]. intros y Hy. apply H. now apply list_elem_of_further.
Qed.

Lemma filter_sublist {A : Type} (p : A -> bool) (l : list A) :
  sublist (List.filter p l) l.
Proof.
  induction l as [|x l IH]; simpl; [constructor|].
  destruct (p x); [now apply sublist_skip | now apply sublist_cons].
Qed.

Lemma isSuccessful_entryOf (images : gmap string GeneratedImage) (l : string) :
  isSuccessful (entryOf images l) = usable images l.
Proof.
  unfold isSuccessful, entryOf, usable. simpl.
  destruct (images !! l) as [image|]; simpl; [|reflexivity].
  destruct (status image); reflexivity.
Qed.

Lemma successfulImages_usable (images : gmap string GeneratedImage)
    (labels : list string) :
  successfulImages images labels = entryOf images <$> usableLabels images labels.
Proof.
  unfold successfulImages, usableLabels. rewrite filter_fmap_comm.
  f_equal. apply filter_ext_bool. intros l _. apply isSuccessful_entryOf.
Qed.

Lemma successfulImages_labels (images : gmap string GeneratedImage)
    (labels : list string) :
  label <$> successfulImages images labels = usableLabels images labels.
Proof.
  rewrite successfulImages_usable, <- list_fmap_compose.
  apply list_fmap_id.
Qed.


(** ** The claims about the interpolation *)

(** C2, as stated, fails.  With a single successful image, produced by a
    batch in which only one task succeeds, the cursor 1/2 lies in the range
    of the slider and the image is drawn with opacity 1/2, not 1. *)
Lemma C2_counterexample :
  let images := finalImages demoApp loneSchedule in
  length (successfulImages images TIME_LABELS) = 1%nat /\
  sliderMin <= 1 # 2 <= sliderMax images TIME_LABELS /\
  ~ (forall w, w ∈ opacities images TIME_LABELS (1 # 2) -> w == 1).
Proof.
  cbv zeta. split; [vm_compute; reflexivity|]. split.
  - split; vm_compute; discriminate.
  - intros H. specialize (H (1 # 2)).
    assert (Hin : (1 # 2) ∈ opacities (finalImages demoApp loneSchedule) TIME_LABELS (1 # 2)).
    { replace (opacities (finalImages demoApp loneSchedule) TIME_LABELS (1 # 2))
        with [1 # 2] by (vm_compute; reflexivity).
      apply list_elem_of_here. }
    specialize (H Hin). vm_compute in H. discriminate.
Qed.

(** C2, amended.  When exactly one image is successful the slider ranges
    over [0,1] and the single image is drawn with opacity [1 - cursor]: it
    is fully opaque at cursor 0 only, and transparent at cursor 1. *)
Theorem C2_single_image_weight
    (images : gmap string GeneratedImage) (labels : list string) (cursor : Q) :
  length (successfulImages images labels) = 1%nat ->
  sliderMin <= cursor <= sliderMax images labels ->
  sliderMax images labels = 1 /\
  exists w, opacities images labels cursor = [w] /\
            w == 1 - cursor /\
            (w == 1 <-> cursor == 0).
Proof.
  intros Hlen. unfold sliderMax, sliderMin, opacities. rewrite Hlen. simpl.
  intros Hc. split; [reflexivity|].
  destruct (successfulImages images labels) as [|image [|image' rest]];
    try discriminate.
  simpl. eexists. split; [reflexivity|].
  change (ofIndex 0) with 0.
  assert (Ha : Qabs (cursor - 0) == cursor) by (rewrite Qabs_pos_eq; lra).
  rewrite calculateOpacity_near by (rewrite Ha; lra).
  rewrite Ha. split; [reflexivity|]. split; intros; lra.
Qed.

Lemma C2_single_image_weight_witness :
  sliderMax (finalImages demoApp loneSchedule) TIME_LABELS = 1 /\
  exists w, opacities (finalImages demoApp loneSchedule) TIME_LABELS (1 # 4) = [w] /\
            w == 1 - (1 # 4) /\
            (w == 1 <-> 1 # 4 == 0).
Proof.
  apply (C2_single_image_weight (finalImages demoApp loneSchedule) TIME_LABELS (1 # 4)).
  - vm_compute. reflexivity.
  - split; vm_compute; discriminate.
Defined.

(** C3.  The weight of an index at a cursor is [max(0, 1 - |cursor - index|)];
    it is 1 when the cursor is at the index, 0 when the distance is at least
    1, and always between 0 and 1. *)
Theorem C3_weight_formula (index : nat) (cursor : Q) :
  calculateOpacity (ofIndex index) cursor
    == Qmax 0 (1 - Qabs (cursor - ofIndex index)) /\
  (cursor == ofIndex index -> calculateOpacity (ofIndex index) cursor == 1) /\
  (1 <= Qabs (cursor - ofIndex index) ->
     calculateOpacity (ofIndex index) cursor == 0) /\
  0 <= calculateOpacity (ofIndex index) cursor <= 1.
Proof.
  split; [apply calculateOpacity_max|].
  split; [|split; [|apply calculateOpacity_range]].
  - intros H. rewrite calculateOpacity_left by lra. lra.
  - intros H.
    destruct (calculateOpacity_cases (ofIndex index) cursor) as [[H' ->]|[H' ->]];
      lra.
Qed.

Lemma C3_weight_formula_witness :
  calculateOpacity (ofIndex 2) 2 == 1 /\
  calculateOpacity (ofIndex 2) 3 == 0 /\
  calculateOpacity (ofIndex 2) (5 # 2) == Qmax 0 (1 - Qabs ((5 # 2) - ofIndex 2)).
Proof.
  split; [|split].
  - apply (C3_weight_formula 2 2). reflexivity.
  - apply (C3_weight_formula 2 3). vm_compute. discriminate.
  - apply (C3_weight_formula 2 (5 # 2)).
Defined.

(** C4.  For a cursor strictly between two consecutive indices of the
    successful images, the opacities of the two images add up to 1 and
    every other image has opacity 0. *)
Theorem C4_partition
    (images : gmap string GeneratedImage) (labels : list string)
    (i : nat) (cursor : Q) :
  (S i < length (successfulImages images labels))%nat ->
  ofIndex i < cursor ->
  cursor < ofIndex (S i) ->
  exists wi wi1,
    opacities images labels cursor !! i = Some wi /\
    opacities images labels cursor !! S i = Some wi1 /\
    wi + wi1 == 1 /\
    forall (j : nat) (w : Q),
      j <> i -> j <> S i ->
      opacities images labels cursor !! j = Some w -> w == 0.
Proof.
  intros Hlen Hlo Hhi. unfold opacities.
  pose proof (ofIndex_S i) as HS.
  destruct (lookup_lt_is_Some_2 (successfulImages images labels) i) as [x Hx];
    [lia|].
  destruct (lookup_lt_is_Some_2 (successfulImages images labels) (S i)) as [y Hy];
    [lia|].
  exists (calculateOpacity (ofIndex i) cursor),
         (calculateOpacity (ofIndex (S i)) cursor).
  rewrite !list_lookup_imap, Hx, Hy. simpl.
  split; [reflexivity|]. split; [reflexivity|]. split.
  - rewrite calculateOpacity_left by lra.
    rewrite calculateOpacity_right by lra. lra.
  - intros j w Hji HjS. rewrite list_lookup_imap.
    destruct (successfulImages images labels !! j); [|discriminate].
    simpl. intros [= <-].
    apply calculateOpacity_outside.
    destruct (Nat.lt_ge_cases j i) as [Hlt|Hge].
    + right. pose proof (ofIndex_le (S j) i Hlt) as Hle.
      rewrite ofIndex_S in Hle. lra.
    + left. assert (Hle : (S (S i) <= j)%nat) by lia.
      apply ofIndex_le in Hle. rewrite !ofIndex_S in Hle. lra.
Qed.

Lemma C4_partition_witness :
  exists wi wi1,
    opacities (finalImages demoApp demoSchedule) TIME_LABELS (3 # 2) !! 1%nat = Some wi /\
    opacities (finalImages demoApp demoSchedule) TIME_LABELS (3 # 2) !! 2%nat = Some wi1 /\
    wi + wi1 == 1 /\
    forall (j : nat) (w : Q),
      j <> 1%nat -> j <> 2%nat ->
      opacities (finalImages demoApp demoSchedule) TIME_LABELS (3 # 2) !! j = Some w ->
      w == 0.
Proof.
  apply (C4_partition (finalImages demoApp demoSchedule) TIME_LABELS 1 (3 # 2)).
  - vm_compute. lia.
  - vm_compute. reflexivity.
  - vm_compute. reflexivity.
Defined.

(** C10.  [calculateOpacity] is total: for every cursor, negative or past
    the last index, and every integer index, inside the sequence or not, it
    yields a value between 0 and 1. *)
Theorem C10_total_and_bounded (index : Z) (cursor : Q) :
  exists w, calculateOpacity (inject_Z index) cursor = w /\ 0 <= w <= 1.
Proof.
  exists (calculateOpacity (inject_Z index) cursor).
  split; [reflexivity | apply calculateOpacity_range].
Qed.

(** ** The claims about the batch *)

(** C1.  Once the handler of a batch has returned, the mapping has an entry
    for every label and every entry is done or error: none is pending. *)
Theorem C1_terminality (a : App) (events : list Event) (r : Run) :
  present a ->
  exec (handleGenerateClick a) events = Some r ->
  handler r = FulfilledP ->
  (forall l, l ∈ TIME_LABELS ->
     exists image, generatedImages (app r) !! l = Some image /\
                   terminal (status image)) /\
  (forall l image, generatedImages (app r) !! l = Some image ->
     status image <> Pending).
Proof.
  intros Hp He Hh.
  destruct (Inv_reachable a Hp events r He) as (Hlab & Hdom & Htasks & Hhd).
  rewrite Hh in Hhd. destruct Hhd as [_ Hall].
  assert (G : forall l, l ∈ TIME_LABELS ->
     exists image, generatedImages (app r) !! l = Some image /\
                   terminal (status image)).
  { intros l Hl. rewrite <- Hlab in Hl.
    apply list_elem_of_fmap in Hl as (t & -> & Ht).
    rewrite Forall_forall in Hall. pose proof (Hall t Ht) as Hst.
    apply list_elem_of_lookup in Ht as [i Hi].
    specialize (Htasks i t Hi). rewrite Hst in Htasks.
    destruct Htasks as (image & Him & Hterm & _). eauto. }
  split; [exact G|].
  intros l image Hl.
  destruct (G l) as (image' & Hl' & [Ht|Ht]); [apply Hdom; eauto| |];
    rewrite Hl in Hl'; injection Hl' as <-; rewrite Ht; discriminate.
Qed.

Lemma C1_terminality_witness :
  (forall l, l ∈ TIME_LABELS ->
     exists image, generatedImages (app demoRun) !! l = Some image /\
                   terminal (status image)) /\
  (forall l image, generatedImages (app demoRun) !! l = Some image ->
     status image <> Pending).
Proof.
  apply (C1_terminality demoApp demoEvents demoRun).
  - reflexivity.
  - vm_compute. reflexivity.
  - vm_compute. reflexivity.
Defined.

(** C5.  The completion of a task writes the entry of its own label, the
    label at its index, which no other task has: done with the url on
    success, error with the message of the error, or with the fixed text
    when what was thrown is not an error, on failure; every other entry is
    left as it was.  So when any set of tasks is forced to fail, each task
    that settles outside the set ends with the entry of its own outcome, as
    it did before, and each task in the set with the entry of the forced
    failure. *)
Theorem C5_isolation :
  let written := fun o : Outcome =>
    match o with
    | Resolves newImageUrl =>
        {| status := Done; url := Some newImageUrl; error := None |}
    | Rejects (ErrorObject message) =>
        {| status := Error; url := None; error := Some message |}
    | Rejects OtherValue =>
        {| status := Error; url := None; error := Some "Generation failed." |}
    end in
  (forall (r r' : Run) (index : nat) (o : Outcome),
     step r (Settle index o) = Some r' ->
     exists t,
       generationPromises r !! index = Some t /\
       generatedImages (app r') !! task_label t = Some (written o) /\
       forall l, l <> task_label t ->
         generatedImages (app r') !! l = generatedImages (app r) !! l) /\
  (forall (a : App) (before : list Event) (r r' : Run) (index : nat) (o : Outcome),
     present a ->
     exec (handleGenerateClick a) before = Some r ->
     step r (Settle index o) = Some r' ->
     exists t l,
       generationPromises r !! index = Some t /\
       TIME_LABELS !! index = Some l /\
       task_label t = l /\
       generatedImages (app r') !! l = Some (written o) /\
       forall j u, j <> index -> generationPromises r !! j = Some u ->
         TIME_LABELS !! j = Some (task_label u) /\
         task_label u <> l /\
         generatedImages (app r') !! task_label u
           = generatedImages (app r) !! task_label u) /\
  (forall (a : App) (events : list Event) (failing : list nat) (err : Thrown)
          (r : Run),
     present a ->
     exec (handleGenerateClick a) events = Some r ->
     exists r',
       exec (handleGenerateClick a) (forceFailure failing err events) = Some r' /\
       forall i l o, TIME_LABELS !! i = Some l -> Settle i o ∈ events ->
         generatedImages (app r) !! l = Some (written o) /\
         generatedImages (app r') !! l
           = Some (if bool_decide (i ∈ failing) then written (Rejects err)
                   else written o)).
Proof.
  intros written.
  assert (Hw : forall o, imageOf o = written o)
    by (intros [u|[m|]]; reflexivity).
  split; [|split].
  - intros r r' index o Hs. simpl in Hs.
    destruct (settle_inv _ _ _ _ Hs) as (t & Ht & _ & Him & _).
    exists t. split; [exact Ht|]. rewrite Him, <- Hw.
    split; [apply lookup_insert_eq|].
    intros l Hl. now apply lookup_insert_ne.
  - intros a before r r' index o Hp He Hs. simpl in Hs.
    destruct (Inv_reachable a Hp before r He) as (Hlab & _).
    destruct (settle_inv _ _ _ _ Hs) as (t & Ht & _ & Him & _).
    assert (Hnd : NoDup (task_label <$> generationPromises r))
      by (rewrite Hlab; apply TIME_LABELS_NoDup).
    assert (Hat : forall j u, generationPromises r !! j = Some u ->
                              TIME_LABELS !! j = Some (task_label u)).
    { intros j u Hu. now rewrite <- Hlab, list_lookup_fmap, Hu. }
    exists t, (task_label t). split; [exact Ht|].
    split; [exact (Hat index t Ht)|]. split; [reflexivity|].
    rewrite Him, <- Hw. split; [apply lookup_insert_eq|].
    intros j u Hj Hu. split; [exact (Hat j u Hu)|].
    assert (Hne : task_label u <> task_label t)
      by exact (distinct_labels r j index u t Hnd Hu Ht Hj).
    split; [exact Hne|]. apply lookup_insert_ne. congruence.
  - intros a events failing err r Hp He.
    destruct (exec_forceFailure failing err events _ (handleGenerateClick a) r
                eq_refl eq_refl He) as [r' He'].
    exists r'. split; [exact He'|].
    intros i l o Hl Hin.
    rewrite (batch_lookup a Hp _ r' i l He' Hl).
    rewrite (batch_lookup a Hp _ r i l He Hl).
    rewrite outcomeOf_forceFailure.
    rewrite (exec_outcome_unique events _ r i o He Hin).
    split; [destruct o as [u|[m|]]; reflexivity|].
    destruct (bool_decide (i ∈ failing));
      [destruct err as [m|] | destruct o as [u|[m|]]]; reflexivity.
Qed.

Lemma C5_isolation_witness :
  let written := fun o : Outcome =>
    match o with
    | Resolves newImageUrl =>
        {| status := Done; url := Some newImageUrl; error := None |}
    | Rejects (ErrorObject message) =>
        {| status := Error; url := None; error := Some message |}
    | Rejects OtherValue =>
        {| status := Error; url := None; error := Some "Generation failed." |}
    end in
  (exists t l,
     generationPromises demoMidRun !! 1%nat = Some t /\
     TIME_LABELS !! 1%nat = Some l /\
     task_label t = l /\
     generatedImages
       (app (default demoMidRun
               (step demoMidRun (Settle 1 (Rejects (ErrorObject "quota exceeded"))))))
       !! l = Some (written (Rejects (ErrorObject "quota exceeded")))) /\
  (exists r',
     exec (handleGenerateClick demoApp)
          (forceFailure [0; 3]%nat OtherValue demoEvents) = Some r' /\
     forall i l o, TIME_LABELS !! i = Some l -> Settle i o ∈ demoEvents ->
       generatedImages (app demoRun) !! l = Some (written o) /\
       generatedImages (app r') !! l
         = Some (if bool_decide (i ∈ [0; 3]%nat) then written (Rejects OtherValue)
                 else written o)).
Proof.
  cbv zeta. split.
  - destruct (step demoMidRun (Settle 1 (Rejects (ErrorObject "quota exceeded"))))
      as [r'|] eqn:Hs; [|vm_compute in Hs; discriminate].
    destruct (proj1 (proj2 C5_isolation) demoApp demoPrefix demoMidRun r' 1%nat
                (Rejects (ErrorObject "quota exceeded")))
      as (t & l & Ht & Hl & Hlab & Him & _).
    + reflexivity.
    + vm_compute. reflexivity.
    + exact Hs.
    + exists t, l. repeat split; assumption.
  - apply (proj2 (proj2 C5_isolation) demoApp demoEvents [0; 3]%nat OtherValue demoRun).
    + reflexivity.
    + vm_compute. reflexivity.
Defined.

(** C6.  Whatever the outcomes and the completion order, a batch in which
    every task settles ends with the handler fulfilled; the handler is never
    rejected, and it has returned only when every task has settled; a task
    that settles, with a success or a failure, leaves the handler and the
    promises of the other tasks as they are. *)
Theorem C6_settles_all :
  (forall (a : App) (schedule : list (nat * Outcome)),
     present a ->
     schedule.*1 ≡ₚ seq 0 (length TIME_SHIFTS) ->
     exists r, runBatch a schedule = Some r /\
               handler r = FulfilledP /\
               appState (app r) = results_shown) /\
  (forall (a : App) (events : list Event) (r : Run),
     present a ->
     exec (handleGenerateClick a) events = Some r ->
     (forall reason, handler r <> RejectedP reason) /\
     length (generationPromises r) = length TIME_SHIFTS /\
     (handler r = FulfilledP ->
        forall t, t ∈ generationPromises r -> task_state t = FulfilledP) /\
     (forall t, t ∈ generationPromises r -> task_state t = PendingP ->
        handler r = PendingP /\ step r Resume = None)) /\
  (forall (r r' : Run) (index : nat) (o : Outcome),
     step r (Settle index o) = Some r' ->
     handler r' = handler r /\
     forall j, j <> index ->
       generationPromises r' !! j = generationPromises r !! j).
Proof.
  split; [|split].
  - intros a schedule Hp Hperm. exact (batch_completes a Hp schedule Hperm).
  - intros a events r Hp He.
    destruct (Inv_reachable a Hp events r He) as (Hlab & _ & Htasks & Hhd).
    split; [|split; [|split]].
    + intros reason Hr. now rewrite Hr in Hhd.
    + rewrite <- TIME_LABELS_length, <- Hlab. now rewrite length_fmap.
    + intros Hh t Ht. rewrite Hh in Hhd. destruct Hhd as [_ Hall].
      rewrite Forall_forall in Hall. exact (Hall t Ht).
    + intros t Ht Hst.
      assert (Hh : handler r = PendingP).
      { destruct (handler r); [reflexivity| |contradiction].
        destruct Hhd as [_ Hall]. rewrite Forall_forall in Hall.
        rewrite (Hall t Ht) in Hst. discriminate. }
      split; [exact Hh|].
      simpl. destruct (resume r) as [r1|] eqn:Hr; [|reflexivity].
      exfalso. destruct (resume_inv _ _ Hr) as (_ & Hall & _).
      rewrite forallb_forall in Hall.
      assert (Hs : settled (task_state t) = true).
      { apply Hall, list_elem_of_In, list_elem_of_fmap. eauto. }
      rewrite Hst in Hs. discriminate.
  - intros r r' index o Hs. simpl in Hs.
    destruct (settle_inv _ _ _ _ Hs) as (t & _ & _ & _ & Hps & Hh & _).
    split; [exact Hh|]. intros j Hj. rewrite Hps.
    apply list_lookup_insert_ne. congruence.
Qed.

Lemma C6_settles_all_witness :
  (exists r, runBatch demoApp loneSchedule = Some r /\
             handler r = FulfilledP /\
             appState (app r) = results_shown) /\
  handler demoMidRun = PendingP /\
  step demoMidRun Resume = None.
Proof.
  split.
  - apply (proj1 C6_settles_all demoApp loneSchedule).
    + reflexivity.
    + apply (bool_decide_unpack _). vm_compute. exact I.
  - assert (Hp : present demoApp) by reflexivity.
    assert (He : exec (handleGenerateClick demoApp) demoPrefix = Some demoMidRun)
      by (vm_compute; reflexivity).
    destruct (proj1 (proj2 C6_settles_all) demoApp demoPrefix demoMidRun Hp He)
      as (_ & _ & _ & Hpend).
    destruct (lookup_lt_is_Some_2 (generationPromises demoMidRun) 1%nat)
      as [t Ht]; [vm_compute; lia|].
    apply (Hpend t).
    + apply list_elem_of_lookup. eauto.
    + vm_compute in Ht. injection Ht as <-. reflexivity.
Defined.

(** C7, as stated, fails.  A task that fulfils with an empty url leaves its
    label with status done, and the images drawn leave that label out. *)
Lemma C7_counterexample :
  let images := finalImages demoApp emptyUrlSchedule in
  status <$> images !! "-75 years" = Some Done /\
  label <$> successfulImages images TIME_LABELS <> doneLabels images TIME_LABELS.
Proof.
  cbv zeta. split; [vm_compute; reflexivity|].
  vm_compute. discriminate.
Qed.

(** C7, amended.  The successful images are the labels, in their original
    order, restricted to those whose entry has status done and a non-empty
    url, each with the url of its entry; where every done entry has a
    non-empty url they are the labels whose status is done; and for a batch
    they do not depend on the order in which the tasks completed. *)
Theorem C7_order_preserved :
  (forall (images : gmap string GeneratedImage) (labels : list string),
     successfulImages images labels = entryOf images <$> usableLabels images labels /\
     label <$> successfulImages images labels = usableLabels images labels /\
     sublist (label <$> successfulImages images labels) labels) /\
  (forall (images : gmap string GeneratedImage) (labels : list string),
     (forall l image, images !! l = Some image -> status image = Done ->
        truthy (url image) = true) ->
     label <$> successfulImages images labels = doneLabels images labels) /\
  (forall (a : App) (s1 s2 : list (nat * Outcome)) (r1 r2 : Run),
     present a ->
     s1 ≡ₚ s2 ->
     runBatch a s1 = Some r1 ->
     runBatch a s2 = Some r2 ->
     successfulImages (generatedImages (app r1)) TIME_LABELS
     = successfulImages (generatedImages (app r2)) TIME_LABELS).
Proof.
  split; [|split].
  - intros images labels.
    split; [apply successfulImages_usable|].
    split; [apply successfulImages_labels|].
    rewrite successfulImages_labels. apply filter_sublist.
  - intros images labels Hurl. rewrite successfulImages_labels.
    apply filter_ext_bool. intros l _. unfold usable.
    destruct (images !! l) as [image|] eqn:Hl; simpl; [|reflexivity].
    destruct (decide (status image = Done)) as [Hd|Hd].
    + rewrite (Hurl l image Hl Hd), Hd. reflexivity.
    + rewrite !bool_decide_eq_false_2; [reflexivity|congruence|exact Hd].
  - intros a s1 s2 r1 r2 Hp Hperm H1 H2.
    now rewrite (batch_images_perm a Hp _ _ r1 r2 (toEvents_perm s1 s2 Hperm) H1 H2).
Qed.

Lemma C7_order_preserved_witness :
  label <$> successfulImages (generatedImages (app demoRun)) TIME_LABELS
    = doneLabels (generatedImages (app demoRun)) TIME_LABELS /\
  successfulImages (generatedImages (app demoRun)) TIME_LABELS
    = successfulImages
        (generatedImages
           (app (default demoRun (runBatch demoApp demoScheduleInOrder))))
        TIME_LABELS.
Proof.
  split.
  - apply (proj1 (proj2 C7_order_preserved)).
    change (map_Forall
              (fun (_ : string) image =>
                 status image = Done -> truthy (url image) = true)
              (generatedImages (app demoRun))).
    apply (bool_decide_unpack _). vm_compute. exact I.
  - apply (proj2 (proj2 C7_order_preserved) demoApp demoSchedule demoScheduleInOrder).
    + reflexivity.
    + apply (bool_decide_unpack _). vm_compute. exact I.
    + vm_compute. reflexivity.
    + vm_compute. reflexivity.
Defined.

(** C8, as stated, fails.  A call that fulfils with the empty string
    leaves its label done with a url field that holds nothing: neither the
    url nor the error of the entry is populated. *)
Lemma C8_counterexample :
  let images := finalImages demoApp emptyUrlSchedule in
  is_Some (runBatch demoApp emptyUrlSchedule) /\
  exists image,
    images !! "-75 years" = Some image /\
    status image = Done /\
    truthy (url image) = false /\
    truthy (error image) = false /\
    ~ wellFormed image.
Proof.
  cbv zeta. split.
  - destruct (runBatch demoApp emptyUrlSchedule) eqn:E; [eauto|].
    vm_compute in E. discriminate.
  - exists {| status := Done; url := Some EmptyString; error := None |}.
    split; [vm_compute; reflexivity|]. repeat split.
    intros [H _]. discriminate.
Qed.

(** C8, amended.  In every state of a batch: an entry that is pending has
    neither a url nor an error field; an entry that is done has no error
    field and its url field holds what its own call was fulfilled with; an
    entry in error has no url field and its error field holds the message of
    the error its own call was rejected with, or the fixed text.  The field
    that is present can be the empty string: the entry has exactly one of
    the two populated, or none while pending, exactly when that string is
    not empty. *)
Theorem C8_item_invariant (a : App) (events : list Event) (r : Run) :
  present a ->
  exec (handleGenerateClick a) events = Some r ->
  forall l image,
    generatedImages (app r) !! l = Some image ->
    match status image with
    | Pending => url image = None /\ error image = None
    | Done =>
        error image = None /\
        exists i newImageUrl,
          TIME_LABELS !! i = Some l /\
          Settle i (Resolves newImageUrl) ∈ events /\
          url image = Some newImageUrl
    | Error =>
        url image = None /\
        exists i err,
          TIME_LABELS !! i = Some l /\
          Settle i (Rejects err) ∈ events /\
          error image = Some match err with
                             | ErrorObject message => message
                             | OtherValue => "Generation failed."
                             end
    end /\
    (wellFormed image <->
     url image <> Some EmptyString /\ error image <> Some EmptyString).
Proof.
  intros Hp He l image Hl.
  destruct (Inv_reachable a Hp events r He) as (_ & Hdom & _).
  assert (Hin : l ∈ TIME_LABELS) by (apply Hdom; eauto).
  apply list_elem_of_lookup in Hin as [i Hi].
  rewrite (batch_lookup a Hp events r i l He Hi) in Hl. injection Hl as <-.
  destruct (outcomeOf i events) as [[u|err]|] eqn:E; simpl.
  - split.
    + split; [reflexivity|]. exists i, u.
      split; [exact Hi|]. split; [now apply outcomeOf_Some_in | reflexivity].
    + unfold wellFormed. simpl. destruct u as [|c u]; simpl.
      * split; [intros [H _]; discriminate | intros [H _]; now destruct H].
      * split; [intros _; split; discriminate | intros _; split; reflexivity].
  - split.
    + split; [reflexivity|]. exists i, err.
      split; [exact Hi|]. split; [now apply outcomeOf_Some_in|].
      now destruct err.
    + unfold wellFormed. simpl. destruct (errorMessage err) as [|c m]; simpl.
      * split; [intros [_ H]; discriminate | intros [_ H]; now destruct H].
      * split; [intros _; split; discriminate | intros _; split; reflexivity].
  - split; [split; reflexivity|].
    unfold wellFormed. simpl.
    split; [intros _; split; discriminate | intros _; split; reflexivity].
Qed.

Lemma C8_item_invariant_witness :
  exec (handleGenerateClick demoApp) demoPrefix = Some demoMidRun /\
  generatedImages (app demoMidRun) !! "+75 years"
    = Some {| status := Done; url := Some (demoUrl 5); error := None |} /\
  (error {| status := Done; url := Some (demoUrl 5); error := None |} = None /\
   exists i newImageUrl,
     TIME_LABELS !! i = Some "+75 years" /\
     Settle i (Resolves newImageUrl) ∈ demoPrefix /\
     url {| status := Done; url := Some (demoUrl 5); error := None |}
       = Some newImageUrl).
Proof.
  assert (He : exec (handleGenerateClick demoApp) demoPrefix = Some demoMidRun)
    by (vm_compute; reflexivity).
  assert (Hl : generatedImages (app demoMidRun) !! "+75 years"
               = Some {| status := Done; url := Some (demoUrl 5); error := None |})
    by (vm_compute; reflexivity).
  split; [exact He|]. split; [exact Hl|].
  exact (proj1 (C8_item_invariant demoApp demoPrefix demoMidRun eq_refl He
                  "+75 years" _ Hl)).
Defined.

(** C9, as stated, fails.  Without a source the handler returns normally:
    its promise is fulfilled, not rejected, and nothing is written to the
    console, so nothing is reported to the caller. *)
Lemma C9_counterexample :
  falsy (sourceImage initialApp) = true /\
  handler (handleGenerateClick initialApp) = FulfilledP /\
  console (handleGenerateClick initialApp) = [] /\
  ~ (exists reason, handler (handleGenerateClick initialApp) = RejectedP reason).
Proof.
  repeat split. intros [reason H]. discriminate.
Qed.

(** C9, amended.  With an absent or empty source the handler returns at
    once and normally: its promise is fulfilled and nothing is logged, the
    component state, with the mapping, is left as it was, no call is issued,
    and no event can follow. *)
Theorem C9_absent_source (a : App) :
  falsy (sourceImage a) = true ->
  handler (handleGenerateClick a) = FulfilledP /\
  app (handleGenerateClick a) = a /\
  generationPromises (handleGenerateClick a) = [] /\
  console (handleGenerateClick a) = [] /\
  forall e, step (handleGenerateClick a) e = None.
Proof.
  intros H. rewrite (handleGenerateClick_absent a H).
  repeat split. intros [index o|]; reflexivity.
Qed.

Lemma C9_absent_source_witness :
  handler (handleGenerateClick (setAppState confirm_image initialApp)) = FulfilledP /\
  app (handleGenerateClick (setAppState confirm_image initialApp))
    = setAppState confirm_image initialApp /\
  generationPromises (handleGenerateClick (setAppState confirm_image initialApp)) = [] /\
  console (handleGenerateClick (setAppState confirm_image initialApp)) = [] /\
  forall e, step (handleGenerateClick (setAppState confirm_image initialApp)) e = None.
Proof.
  apply (C9_absent_source (setAppState confirm_image initialApp)). reflexivity.
Defined.

(** ** Further properties of the morpher *)

Lemma calculateOpacity_nonzero (i c : Q) :
  ~ calculateOpacity i c == 0 -> Qabs (c - i) < 1.
Proof.
  intros H.
  destruct (calculateOpacity_cases i c) as [[H1 E]|[H1 E]]; rewrite E in H.
  - destruct (Qlt_le_dec (Qabs (c - i)) 1) as [Hlt|Hge]; [exact Hlt|].
    exfalso. apply H. lra.
  - exfalso. now apply H.
Qed.

Lemma ofIndex_lt_inv (i j : nat) : ofIndex i < ofIndex j + 2 -> (i < j + 2)%nat.
Proof.
  unfold ofIndex. intros H.
  change 2 with (inject_Z 2) in H. rewrite <- inject_Z_plus, <- Zlt_Qlt in H. lia.
Qed.

(** The opacities of [n] consecutive images, the first at index [k]. *)
Lemma Qsum_opacities {A : Type} (l : list A) (k : nat) (c : Q) :
  let ws := imap (fun i _ => calculateOpacity (ofIndex (k + i)) c) l in
  (c <= ofIndex k - 1 -> Qsum ws == 0) /\
  (ofIndex k - 1 <= c <= ofIndex k -> l <> [] -> Qsum ws == 1 + (c - ofIndex k)) /\
  (ofIndex k <= c <= ofIndex (k + length l) - 1 -> Qsum ws == 1).
Proof.
  revert k. induction l as [|x l IH]; intros k; cbv zeta.
  - simpl. rewrite Nat.add_0_r. split; [reflexivity|].
    split; [intros _ H; now destruct H | intros H; lra].
  - assert (E : Qsum (imap (fun i (_ : A) => calculateOpacity (ofIndex (k + i)) c) (x :: l))
                == calculateOpacity (ofIndex k) c
                   + Qsum (imap (fun i (_ : A) => calculateOpacity (ofIndex (S k + i)) c) l)).
    { simpl. rewrite Nat.add_0_r. apply Qplus_inj_l.
      replace (imap ((fun i (_ : A) => calculateOpacity (ofIndex (k + i)) c) ∘ S) l)
        with (imap (fun i (_ : A) => calculateOpacity (ofIndex (S k + i)) c) l);
        [reflexivity|].
      apply imap_ext. intros i y _. simpl. now rewrite Nat.add_succ_r. }
    destruct (IH (S k)) as (IH0 & IH1 & IH2). cbv zeta in IH0, IH1, IH2.
    pose proof (ofIndex_S k) as HS.
    assert (HL : ofIndex (k + length (x :: l)) == ofIndex (S k + length l))
      by (simpl; now rewrite Nat.add_succ_r).
    split; [|split].
    + intros Hc. rewrite E, IH0 by lra.
      rewrite calculateOpacity_outside by (left; lra). lra.
    + intros Hc _. rewrite E, IH0 by lra.
      rewrite calculateOpacity_right by lra. lra.
    + intros Hc. rewrite HL in Hc. rewrite E.
      destruct (Qlt_le_dec c (ofIndex (S k))) as [Hlt|Hge].
      * rewrite calculateOpacity_left by lra.
        destruct l as [|y l].
        { simpl in Hc. rewrite Nat.add_0_r in Hc. lra. }
        rewrite IH1 by (lra || discriminate). lra.
      * rewrite calculateOpacity_outside by (right; lra).
        rewrite IH2 by lra. lra.
Qed.

(** X1.  When the cursor is between the first and the last index of the
    successful images, the opacities of all the images add up to 1. *)
Theorem X1_opacities_sum_to_one
    (images : gmap string GeneratedImage) (labels : list string) (cursor : Q) :
  0 <= cursor ->
  cursor <= ofIndex (length (successfulImages images labels)) - 1 ->
  Qsum (opacities images labels cursor) == 1.
Proof.
  intros Hlo Hhi. unfold opacities.
  destruct (Qsum_opacities (successfulImages images labels) 0 cursor)
    as (_ & _ & H). cbv zeta in H. simpl in H. apply H.
  change (ofIndex 0) with 0. lra.
Qed.

Lemma X1_opacities_sum_to_one_witness :
  0 <= 7 # 4 /\
  Qsum (opacities (finalImages demoApp demoSchedule) TIME_LABELS (7 # 4)) == 1.
Proof.
  split; [vm_compute; discriminate|].
  apply (X1_opacities_sum_to_one (finalImages demoApp demoSchedule) TIME_LABELS (7 # 4)).
  - vm_compute. discriminate.
  - vm_compute. discriminate.
Defined.

(** X2.  At any cursor the images that are not fully transparent sit at
    the same or at neighbouring positions: at most two images are visible. *)
Theorem X2_visible_are_adjacent
    (images : gmap string GeneratedImage) (labels : list string) (cursor : Q)
    (i j : nat) (wi wj : Q) :
  opacities images labels cursor !! i = Some wi ->
  opacities images labels cursor !! j = Some wj ->
  ~ wi == 0 -> ~ wj == 0 ->
  i = j \/ i = S j \/ j = S i.
Proof.
  unfold opacities. rewrite !list_lookup_imap.
  destruct (successfulImages images labels !! i); [|discriminate].
  destruct (successfulImages images labels !! j); [|discriminate].
  simpl. intros [= <-] [= <-] Hi Hj.
  apply calculateOpacity_nonzero in Hi, Hj.
  assert (H1 : ofIndex i < ofIndex j + 2).
  { revert Hi Hj. apply Qabs_case; apply Qabs_case; intros; lra. }
  assert (H2 : ofIndex j < ofIndex i + 2).
  { revert Hi Hj. apply Qabs_case; apply Qabs_case; intros; lra. }
  apply ofIndex_lt_inv in H1, H2. lia.
Qed.

Lemma X2_visible_are_adjacent_witness :
  (1 = 2 \/ 1 = S 2 \/ 2 = S 1)%nat.
Proof.
  apply (X2_visible_are_adjacent (finalImages demoApp demoSchedule) TIME_LABELS
           (3 # 2) 1 2 (1 # 2) (1 # 2)).
  - vm_compute. reflexivity.
  - vm_compute. reflexivity.
  - vm_compute. discriminate.
  - vm_compute. discriminate.
Defined.

(** X4.  Every successful image has a slider position of its own: its index
    lies in the range of the slider, and with the cursor there the image is
    fully opaque and every other image is transparent. *)
Theorem X4_every_image_reachable
    (images : gmap string GeneratedImage) (labels : list string) (i : nat) :
  (i < length (successfulImages images labels))%nat ->
  sliderMin <= ofIndex i <= sliderMax images labels /\
  (exists w, opacities images labels (ofIndex i) !! i = Some w /\ w == 1) /\
  (forall j w, j <> i ->
     opacities images labels (ofIndex i) !! j = Some w -> w == 0).
Proof.
  intros Hi. split; [|split].
  - unfold sliderMin, sliderMax. cbv zeta.
    assert (H0 : 0 <= ofIndex i) by (apply (ofIndex_le 0 i); lia).
    destruct (1 <? length (successfulImages images labels))%nat eqn:E.
    + split; [exact H0|]. apply ofIndex_le. lia.
    + apply Nat.ltb_ge in E. assert (i = 0)%nat as -> by lia.
      change (ofIndex 0) with 0. lra.
  - unfold opacities. rewrite list_lookup_imap.
    destruct (lookup_lt_is_Some_2 (successfulImages images labels) i Hi) as [x Hx].
    rewrite Hx. simpl. eexists. split; [reflexivity|].
    rewrite calculateOpacity_left by lra. lra.
  - intros j w Hne. unfold opacities. rewrite list_lookup_imap.
    destruct (successfulImages images labels !! j); [|discriminate].
    simpl. intros [= <-]. apply calculateOpacity_outside.
    destruct (Nat.lt_ge_cases j i) as [Hlt|Hge].
    + right. pose proof (ofIndex_le (S j) i Hlt) as Hle.
      rewrite ofIndex_S in Hle. lra.
    + left. assert (Hle : (S i <= j)%nat) by lia.
      apply ofIndex_le in Hle. rewrite ofIndex_S in Hle. lra.
Qed.

Lemma X4_every_image_reachable_witness :
  sliderMin <= ofIndex 3 <= sliderMax (finalImages demoApp demoSchedule) TIME_LABELS /\
  (exists w, opacities (finalImages demoApp demoSchedule) TIME_LABELS (ofIndex 3) !! 3%nat
             = Some w /\ w == 1) /\
  (forall j w, j <> 3%nat ->
     opacities (finalImages demoApp demoSchedule) TIME_LABELS (ofIndex 3) !! j = Some w ->
     w == 0).
Proof.
  apply (X4_every_image_reachable (finalImages demoApp demoSchedule) TIME_LABELS 3).
  vm_compute. lia.
Defined.

(** ** What the morpher renders *)

Lemma successfulImages_elem (images : gmap string GeneratedImage)
    (labels : list string) (image : Entry) :
  image ∈ successfulImages images labels ->
  label image ∈ labels /\
  entry_status image = Some Done /\
  exists u, entry_url image = Some u /\ u <> EmptyString.
Proof.
  unfold successfulImages. intros H.
  apply list_elem_of_In, filter_In in H as [Hin Hok].
  apply list_elem_of_In, list_elem_of_fmap in Hin as (l & -> & Hl).
  split; [exact Hl|]. unfold isSuccessful in Hok.
  apply andb_true_iff in Hok as [Hs Hu].
  apply bool_decide_eq_true in Hs. split; [exact Hs|].
  unfold truthy in Hu. destruct (entry_url (entryOf images l)) as [u|];
    [|discriminate].
  exists u. split; [reflexivity|]. intros ->. discriminate.
Qed.

Lemma render_imgs (images : gmap string GeneratedImage) (labels : list string)
    (v : Q) (imgs : list Img) (lo hi value : Q) (captions : list string) :
  render images labels v = Morpher imgs lo hi value captions ->
  imgs = imap (renderImg v) (successfulImages images labels) /\
  captions = (fun image => decadeLabel (label image)) <$> successfulImages images labels /\
  lo = sliderMin /\ hi = sliderMax images labels /\ value = v.
Proof.
  unfold render. cbv zeta.
  destruct (length (successfulImages images labels) =? 0)%nat; [discriminate|].
  intros [= <- <- <- <- <-]. repeat split.
Qed.

Lemma renderImg_keys (v : Q) (l : list Entry) :
  img_key <$> imap (renderImg v) l = label <$> l.
Proof.
  assert (G : forall (f : nat -> Entry -> Img),
            (forall i e, img_key (f i e) = label e) ->
            img_key <$> imap f l = label <$> l).
  { induction l as [|x l IH]; intros f Hf; [reflexivity|].
    simpl. rewrite Hf. f_equal. apply IH. intros i e. apply Hf. }
  apply G. reflexivity.
Qed.

(** X5.  Every image the morpher renders has a source: the [url] read by
    [image.url!] is present and not empty, so no [<img>] is left without
    one. *)
Theorem X5_rendered_src_present
    (images : gmap string GeneratedImage) (labels : list string) (v : Q)
    (imgs : list Img) (lo hi value : Q) (captions : list string) :
  render images labels v = Morpher imgs lo hi value captions ->
  forall img, img ∈ imgs ->
    exists u, img_src img = Some u /\ u <> EmptyString /\
              exists image, images !! img_key img = Some image /\
                            status image = Done /\ url image = Some u.
Proof.
  intros (-> & _)%render_imgs img Hin.
  apply list_elem_of_lookup in Hin as [i Hi].
  rewrite list_lookup_imap in Hi.
  destruct (successfulImages images labels !! i) as [e|] eqn:He; [|discriminate].
  simpl in Hi. injection Hi as <-. simpl.
  assert (Hin : e ∈ successfulImages images labels)
    by (apply list_elem_of_lookup; eauto).
  pose proof Hin as Hin'. rewrite successfulImages_usable in Hin'.
  apply list_elem_of_fmap in Hin' as (l & -> & _).
  destruct (successfulImages_elem images labels _ Hin) as (_ & Hs & u & Hu & Hne).
  exists u. split; [exact Hu|]. split; [exact Hne|].
  unfold entryOf in Hs, Hu |- *. simpl in *.
  destruct (images !! l) as [image|]; [|discriminate].
  exists image. split; [reflexivity|]. simpl in Hs, Hu.
  split; [congruence | exact Hu].
Qed.

Lemma X5_rendered_src_present_witness :
  exists imgs lo hi value captions,
    render (finalImages demoApp demoSchedule) TIME_LABELS 2
      = Morpher imgs lo hi value captions /\
    forall img, img ∈ imgs ->
      exists u, img_src img = Some u /\ u <> EmptyString /\
                exists image,
                  finalImages demoApp demoSchedule !! img_key img = Some image /\
                  status image = Done /\ url image = Some u.
Proof.
  destruct (render (finalImages demoApp demoSchedule) TIME_LABELS 2)
    as [|imgs lo hi value captions] eqn:E; [vm_compute in E; discriminate|].
  exists imgs, lo, hi, value, captions. split; [reflexivity|].
  exact (X5_rendered_src_present _ _ _ _ _ _ _ _ E).
Defined.

(** X6.  The React keys of the rendered images are their labels, in the
    order of the labels given; when the labels are pairwise distinct so are
    the keys. *)
Theorem X6_keys_distinct
    (images : gmap string GeneratedImage) (labels : list string) (v : Q)
    (imgs : list Img) (lo hi value : Q) (captions : list string) :
  NoDup labels ->
  render images labels v = Morpher imgs lo hi value captions ->
  NoDup (img_key <$> imgs) /\ sublist (img_key <$> imgs) labels.
Proof.
  intros Hnd (-> & _)%render_imgs.
  rewrite renderImg_keys, successfulImages_labels.
  assert (Hs : sublist (usableLabels images labels) labels) by apply filter_sublist.
  split; [|exact Hs]. eapply sublist_NoDup; eauto.
Qed.

Lemma X6_keys_distinct_witness :
  exists imgs lo hi value captions,
    render (finalImages demoApp demoSchedule) TIME_LABELS 2
      = Morpher imgs lo hi value captions /\
    NoDup (img_key <$> imgs) /\ sublist (img_key <$> imgs) TIME_LABELS.
Proof.
  destruct (render (finalImages demoApp demoSchedule) TIME_LABELS 2)
    as [|imgs lo hi value captions] eqn:E; [vm_compute in E; discriminate|].
  exists imgs, lo, hi, value, captions. split; [reflexivity|].
  exact (X6_keys_distinct _ _ _ _ _ _ _ _ TIME_LABELS_NoDup E).
Defined.

Lemma usable_of_entry (images : gmap string GeneratedImage) (l : string)
    (image : GeneratedImage) :
  images !! l = Some image ->
  usable images l = bool_decide (status image = Done) && truthy (url image).
Proof. intros H. unfold usable. now rewrite H. Qed.

Lemma filter_nil_iff {A : Type} (p : A -> bool) (l : list A) :
  List.filter p l = [] <-> forall x, x ∈ l -> p x = false.
Proof.
  induction l as [|x l IH]; simpl.
  - split; [intros _ y Hy; now apply not_elem_of_nil in Hy | reflexivity].
  - destruct (p x) eqn:E.
    + split; [discriminate|]. intros H.
      rewrite (H x) in E by apply list_elem_of_here. discriminate.
    + rewrite IH. split.
      * intros H y Hy. apply elem_of_cons in Hy as [->|Hy]; [exact E|now apply H].
      * intros H y Hy. apply H. now apply list_elem_of_further.
Qed.

Lemma render_NoImages_iff (images : gmap string GeneratedImage)
    (labels : list string) (v : Q) :
  render images labels v = NoImages <->
  forall l, l ∈ labels -> usable images l = false.
Proof.
  unfold render. cbv zeta. rewrite <- filter_nil_iff.
  fold (usableLabels images labels).
  rewrite <- successfulImages_labels.
  destruct (successfulImages images labels) as [|e es]; simpl.
  - split; reflexivity.
  - split; discriminate.
Qed.

(** X7.  The morpher shows its apology exactly when no label has a usable
    entry; in particular it does after a batch in which every call that
    settled was rejected, whatever the order. *)
Theorem X7_apology_when_nothing_succeeded :
  (forall (images : gmap string GeneratedImage) (labels : list string) (v : Q),
     render images labels v = NoImages <->
     forall l, l ∈ labels -> usable images l = false) /\
  (forall (a : App) (events : list Event) (r : Run) (v : Q),
     present a ->
     exec (handleGenerateClick a) events = Some r ->
     (forall i u, Settle i (Resolves u) ∉ events) ->
     render (generatedImages (app r)) TIME_LABELS v = NoImages).
Proof.
  split; [exact render_NoImages_iff|].
  intros a events r v Hp He Hrej. apply render_NoImages_iff.
  intros l Hl. apply list_elem_of_lookup in Hl as [i Hi].
  rewrite (usable_of_entry _ l _ (batch_lookup a Hp events r i l He Hi)).
  destruct (outcomeOf i events) as [[u|err]|] eqn:E; simpl; try reflexivity.
  exfalso. apply (Hrej i u). now apply outcomeOf_Some_in.
Qed.

Lemma X7_apology_when_nothing_succeeded_witness :
  exec (handleGenerateClick demoApp) (toEvents allFailSchedule ++ [Resume])
    = runBatch demoApp allFailSchedule /\
  render (finalImages demoApp allFailSchedule) TIME_LABELS 2 = NoImages.
Proof.
  split; [reflexivity|].
  destruct (runBatch demoApp allFailSchedule) as [r|] eqn:E;
    [|vm_compute in E; discriminate].
  unfold finalImages. rewrite E. simpl.
  apply (proj2 X7_apology_when_nothing_succeeded demoApp
           (toEvents allFailSchedule ++ [Resume]) r 2).
  - reflexivity.
  - exact E.
  - intros i u Hin. vm_compute in Hin.
    repeat (apply elem_of_cons in Hin as [Hin|Hin]; [discriminate|]).
    now apply not_elem_of_nil in Hin.
Defined.

(** X8.  With at most two successful images, at the slider value 2 with
    which the component starts every image is transparent and hidden: the
    value lies beyond the maximum of the slider. *)
Theorem X8_initial_slider_hides_all (a : App) :
  sliderValue a = 2 ->
  (length (successfulImages (generatedImages a) TIME_LABELS) <= 2)%nat ->
  (forall imgs lo hi value captions,
     render (generatedImages a) TIME_LABELS (sliderValue a)
       = Morpher imgs lo hi value captions ->
     forall img, img ∈ imgs ->
       img_opacity img == 0 /\ img_ariaHidden img = true) /\
  ~ sliderValue a <= sliderMax (generatedImages a) TIME_LABELS.
Proof.
  intros Hv Hn. rewrite Hv. split.
  - intros imgs lo hi value captions (-> & _)%render_imgs img Hin.
    apply list_elem_of_lookup in Hin as [i Hi].
    rewrite list_lookup_imap in Hi.
    destruct (successfulImages (generatedImages a) TIME_LABELS !! i) as [e|] eqn:He;
      [|discriminate].
    simpl in Hi. injection Hi as <-. simpl.
    apply lookup_lt_Some in He.
    assert (Hw : calculateOpacity (ofIndex i) 2 == 0).
    { assert (i = 0 \/ i = 1)%nat as [-> | ->] by lia; reflexivity. }
    split; [exact Hw|]. now apply Qeq_bool_iff.
  - unfold sliderMax. cbv zeta.
    destruct (length (successfulImages (generatedImages a) TIME_LABELS))
      as [|[|[|n]]]; simpl; try lia; intros H; vm_compute in H; now apply H.
Qed.

Lemma X8_initial_slider_hides_all_witness :
  let a := setGeneratedImages (fun _ => finalImages demoApp loneSchedule) demoApp in
  sliderValue a = 2 /\
  (forall imgs lo hi value captions,
     render (generatedImages a) TIME_LABELS (sliderValue a)
       = Morpher imgs lo hi value captions ->
     forall img, img ∈ imgs ->
       img_opacity img == 0 /\ img_ariaHidden img = true) /\
  ~ sliderValue a <= sliderMax (generatedImages a) TIME_LABELS.
Proof.
  cbv zeta. split; [reflexivity|].
  apply (X8_initial_slider_hides_all
           (setGeneratedImages (fun _ => finalImages demoApp loneSchedule) demoApp)).
  - reflexivity.
  - vm_compute. lia.
Defined.

(** ** Labels, captions and prompts *)

Lemma noSpace_app (s t : string) :
  noSpace (s +:+ t) = noSpace s && noSpace t.
Proof.
  induction s as [|c s IH]; simpl; [reflexivity|].
  rewrite IH. now rewrite andb_assoc.
Qed.

Lemma noSpace_pretty_N_char (x : N) :
  Ascii.eqb (pretty_N_char x) Ascii.Space = false.
Proof. unfold pretty_N_char. repeat case_match; reflexivity. Qed.

Lemma noSpace_pretty_N_go (x : N) (s : string) :
  noSpace s = true -> noSpace (pretty_N_go x s) = true.
Proof.
  revert s. induction (N.lt_wf_0 x) as [x _ IH]; intros s Hs.
  assert (x = 0 \/ 0 < x)%N as [->|Hx] by lia.
  - now rewrite pretty_N_go_0.
  - rewrite pretty_N_go_step by exact Hx. apply IH.
    + now apply N.div_lt.
    + simpl. now rewrite noSpace_pretty_N_char, Hs.
Qed.

Lemma noSpace_pretty_N (x : N) : noSpace (pretty x) = true.
Proof.
  unfold pretty, pretty_N. destruct (decide (x = 0%N)); [reflexivity|].
  now apply noSpace_pretty_N_go.
Qed.

Lemma noSpace_pretty_Z (x : Z) : noSpace (pretty x) = true.
Proof.
  destruct x as [|p|p]; [reflexivity|apply noSpace_pretty_N|].
  change (pretty (Z.neg p)) with ("-" +:+ pretty (N.pos p)).
  rewrite noSpace_app, noSpace_pretty_N. reflexivity.
Qed.

Lemma timeLabel_signed (shift : Z) : timeLabel shift = signed shift +:+ " years".
Proof. unfold timeLabel, signed. now destruct (shift <? 0)%Z. Qed.

Lemma noSpace_signed (shift : Z) : noSpace (signed shift) = true.
Proof.
  unfold signed. destruct (shift <? 0)%Z; [apply noSpace_pretty_Z|].
  rewrite noSpace_app, noSpace_pretty_Z. reflexivity.
Qed.

Lemma prefix_app (s t : string) : String.prefix s (s +:+ t) = true.
Proof.
  induction s as [|c s IH]; [now destruct t|].
  change (String c s +:+ t) with (String c (s +:+ t)). cbn [String.prefix].
  destruct (Ascii.ascii_dec c c); [exact IH|contradiction].
Qed.

Lemma dropChars_app (s t : string) : dropChars (String.length s) (s +:+ t) = t.
Proof. induction s as [|c s IH]; simpl; [reflexivity|exact IH]. Qed.

Lemma replaceFirst_eq (pat rep s : string) :
  replaceFirst pat rep s =
    if String.prefix pat s then rep +:+ dropChars (String.length pat) s
    else match s with
         | EmptyString => EmptyString
         | String c s => String c (replaceFirst pat rep s)
         end.
Proof. destruct s; reflexivity. Qed.

(** A pattern that starts with a space is first found where the first space
    is. *)
Lemma replaceFirst_first_space (p pat rep q : string) :
  noSpace p = true ->
  replaceFirst (String Ascii.Space pat) rep (p +:+ String Ascii.Space pat +:+ q)
  = p +:+ rep +:+ q.
Proof.
  intros Hp. induction p as [|c p IH].
  - change (EmptyString +:+ String Ascii.Space pat +:+ q)
      with (String Ascii.Space pat +:+ q).
    rewrite replaceFirst_eq, prefix_app, dropChars_app. reflexivity.
  - simpl in Hp. apply andb_true_iff in Hp as [Hc Hp].
    apply negb_true_iff in Hc.
    change (String c p +:+ String Ascii.Space pat +:+ q)
      with (String c (p +:+ String Ascii.Space pat +:+ q)).
    rewrite replaceFirst_eq.
    replace (String.prefix (String Ascii.Space pat)
               (String c (p +:+ String Ascii.Space pat +:+ q))) with false.
    + rewrite IH by exact Hp. reflexivity.
    + cbn [String.prefix].
      destruct (Ascii.ascii_dec Ascii.Space c) as [<-|Hne]; [|reflexivity].
      rewrite Ascii.eqb_refl in Hc. discriminate.
Qed.

(** Strings that agree up to and after their first space. *)
Lemma first_space_split (p1 p2 r1 r2 : string) :
  noSpace p1 = true -> noSpace p2 = true ->
  p1 +:+ String Ascii.Space r1 = p2 +:+ String Ascii.Space r2 ->
  p1 = p2 /\ r1 = r2.
Proof.
  revert p2. induction p1 as [|c p1 IH]; intros [|d p2] H1 H2 E; simpl in *.
  - injection E as ->. split; reflexivity.
  - injection E as <- _. rewrite Ascii.eqb_refl in H2. discriminate.
  - injection E as -> _. rewrite Ascii.eqb_refl in H1. discriminate.
  - injection E as -> E.
    apply andb_true_iff in H1 as [_ H1]. apply andb_true_iff in H2 as [_ H2].
    destruct (IH p2 H1 H2 E) as [-> ->]. split; reflexivity.
Qed.

Lemma signed_inj (s1 s2 : Z) : signed s1 = signed s2 -> s1 = s2.
Proof.
  unfold signed.
  destruct (s1 <? 0)%Z eqn:E1, (s2 <? 0)%Z eqn:E2; intros H.
  - now apply (inj pretty).
  - apply Z.ltb_lt in E1. destruct s1 as [|p|p]; try lia.
    change (pretty (Z.neg p)) with ("-" +:+ pretty (N.pos p)) in H.
    discriminate.
  - apply Z.ltb_lt in E2. destruct s2 as [|p|p]; try lia.
    change (pretty (Z.neg p)) with ("-" +:+ pretty (N.pos p)) in H.
    discriminate.
  - injection H as H. now apply (inj pretty).
Qed.

(** X9.  Distinct shifts have distinct labels, so the labels made from any
    list of pairwise distinct shifts are pairwise distinct keys. *)
Theorem X9_labels_distinct :
  (forall s1 s2 : Z, timeLabel s1 = timeLabel s2 -> s1 = s2) /\
  (forall shifts : list Z, NoDup shifts -> NoDup (timeLabel <$> shifts)).
Proof.
  assert (Hinj : forall s1 s2 : Z, timeLabel s1 = timeLabel s2 -> s1 = s2).
  { intros s1 s2. rewrite !timeLabel_signed. intros H.
    apply signed_inj.
    now destruct (first_space_split _ _ _ _ (noSpace_signed s1) (noSpace_signed s2) H). }
  split; [exact Hinj|].
  intros shifts Hnd. apply NoDup_fmap_2; [|exact Hnd].
  intros s1 s2. apply Hinj.
Qed.

Lemma X9_labels_distinct_witness :
  NoDup TIME_SHIFTS /\ NoDup (timeLabel <$> TIME_SHIFTS).
Proof.
  assert (H : NoDup TIME_SHIFTS) by (apply (bool_decide_unpack _); vm_compute; exact I).
  split; [exact H|]. exact (proj2 X9_labels_distinct TIME_SHIFTS H).
Defined.

(** X10.  The caption of the label of a shift is its sign and digits
    followed by [y], and the name under which its image is downloaded is
    [past-forward-], the sign and digits, [years.jpg], without a space. *)
Theorem X10_caption_and_file_name (shift : Z) :
  decadeLabel (timeLabel shift) = signed shift +:+ "y" /\
  replaceFirst " " EmptyString (timeLabel shift) = signed shift +:+ "years" /\
  noSpace ("past-forward-"
           +:+ replaceFirst " " EmptyString (timeLabel shift) +:+ ".jpg") = true.
Proof.
  rewrite timeLabel_signed. pose proof (noSpace_signed shift) as Hs.
  assert (H1 : decadeLabel (signed shift +:+ " years") = signed shift +:+ "y").
  { unfold decadeLabel.
    exact (replaceFirst_first_space (signed shift) "years" "y" EmptyString Hs). }
  assert (H2 : replaceFirst " " EmptyString (signed shift +:+ " years")
               = signed shift +:+ "years").
  { exact (replaceFirst_first_space (signed shift) EmptyString EmptyString "years" Hs). }
  split; [exact H1|]. split; [exact H2|].
  rewrite H2. change ("past-forward-" +:+ (signed shift +:+ "years") +:+ ".jpg")
    with ("past-forward-" +:+ ((signed shift +:+ "years") +:+ ".jpg")).
  rewrite !noSpace_app, Hs. reflexivity.
Qed.

(** X11.  Distinct shifts are given distinct prompts: the prompt states the
    number of years and the direction of its own shift. *)
Theorem X11_prompts_distinct (s1 s2 : Z) :
  getTransformPrompt s1 = getTransformPrompt s2 -> s1 = s2.
Proof.
  unfold getTransformPrompt. intros H.
  apply (inj (String.append _)) in H.
  apply first_space_split in H as [Habs Hrest];
    [|apply noSpace_pretty_Z..].
  apply (inj pretty) in Habs.
  apply (inj (String.append "years in the ")) in Hrest.
  destruct (s1 <? 0)%Z eqn:E1, (s2 <? 0)%Z eqn:E2; try discriminate.
  - apply Z.ltb_lt in E1, E2. lia.
  - apply Z.ltb_ge in E1, E2. lia.
Qed.

Lemma X11_prompts_distinct_witness :
  getTransformPrompt 25 = getTransformPrompt (0 + 25) /\ 25%Z = (0 + 25)%Z.
Proof.
  split; [reflexivity|].
  apply (X11_prompts_distinct 25 (0 + 25)). reflexivity.
Defined.

(** ** The download *)

Lemma spread_successful (images : gmap string GeneratedImage) (l : string) :
  bool_decide (sp_status (spreadOf images l) = Some Done)
    && truthy (sp_url (spreadOf images l))
  = usable images l.
Proof.
  unfold spreadOf, usable. simpl.
  destruct (images !! l) as [image|]; simpl; [|reflexivity].
  destruct (status image); reflexivity.
Qed.

Lemma downloadable_usable (a : App) :
  downloadable a = spreadOf (generatedImages a) <$> usableLabels (generatedImages a) TIME_LABELS.
Proof.
  unfold downloadable, usableLabels. rewrite filter_fmap_comm. f_equal.
  apply filter_ext_bool. intros l _. apply spread_successful.
Qed.

Lemma downloadable_length (a : App) :
  length (downloadable a) = length (successfulImages (generatedImages a) TIME_LABELS).
Proof.
  now rewrite downloadable_usable, successfulImages_usable, !length_fmap.
Qed.

Lemma downloadable_lookup (a : App) (k : nat) (img : Spread) :
  downloadable a !! k = Some img ->
  successfulImages (generatedImages a) TIME_LABELS !! k
    = Some (entryOf (generatedImages a) (sp_label img)) /\
  entry_url (entryOf (generatedImages a) (sp_label img)) = sp_url img /\
  exists u, sp_url img = Some u /\ truthy (Some u) = true.
Proof.
  rewrite downloadable_usable, successfulImages_usable, !list_lookup_fmap.
  destruct (usableLabels (generatedImages a) TIME_LABELS !! k) as [l|] eqn:Hl;
    [|discriminate].
  simpl. intros [= <-]. split; [reflexivity|]. split; [reflexivity|]. simpl.
  assert (Hin : l ∈ usableLabels (generatedImages a) TIME_LABELS)
    by (apply list_elem_of_lookup; eauto).
  apply list_elem_of_In, filter_In in Hin as [_ Hu].
  unfold usable in Hu. destruct (generatedImages a !! l) as [image|];
    [|discriminate].
  apply andb_true_iff in Hu as [_ Hu]. simpl.
  destruct (url image) as [u|]; [|discriminate]. eauto.
Qed.

Lemma mathRound_bounds (x : Q) :
  inject_Z (mathRound x) - (1 # 2) <= x /\ x < inject_Z (mathRound x) + (1 # 2).
Proof.
  unfold mathRound.
  pose proof (Qfloor_le (x + (1 # 2))) as H1.
  pose proof (Qlt_floor (x + (1 # 2))) as H2.
  rewrite inject_Z_plus in H2. change (inject_Z 1) with 1 in H2. lra.
Qed.

Lemma atIndex_Some {A : Type} (l : list A) (k : Z) (x : A) :
  atIndex l k = Some x <-> (0 <= k)%Z /\ l !! Z.to_nat k = Some x.
Proof.
  unfold atIndex. destruct (k <? 0)%Z eqn:E.
  - apply Z.ltb_lt in E. split; [discriminate | intros [H _]; lia].
  - apply Z.ltb_ge in E. split; [now intros H | now intros [_ H]].
Qed.

(** The link that is clicked is that of the image at the rounded cursor. *)
Lemma handleDownloadCurrentImage_Some (a : App) (link : Link) :
  handleDownloadCurrentImage a = Some link <->
  exists img,
    (0 <= mathRound (sliderValue a))%Z /\
    downloadable a !! Z.to_nat (mathRound (sliderValue a)) = Some img /\
    sp_url img = Some (link_href link) /\
    link_download link
      = "past-forward-" +:+ replaceFirst " " EmptyString (sp_label img) +:+ ".jpg".
Proof.
  unfold handleDownloadCurrentImage. cbv zeta. split.
  - destruct (length (downloadable a) =? 0)%nat; [discriminate|].
    destruct (atIndex (downloadable a) (mathRound (sliderValue a))) as [img|] eqn:E;
      [|discriminate].
    apply atIndex_Some in E as [Hk Hl].
    destruct (sp_url img) as [u|] eqn:Hu; [|discriminate].
    destruct (truthy (Some u)); [|discriminate].
    intros [= <-]. exists img. simpl. repeat split; assumption.
  - intros (img & Hk & Hl & Hu & Hn).
    destruct (length (downloadable a) =? 0)%nat eqn:E.
    { apply Nat.eqb_eq in E. apply lookup_lt_Some in Hl. lia. }
    assert (Hat : atIndex (downloadable a) (mathRound (sliderValue a)) = Some img)
      by (apply atIndex_Some; split; assumption).
    rewrite Hat, Hu.
    destruct (downloadable_lookup a _ img Hl) as (_ & _ & u & Hu' & Ht).
    rewrite Hu in Hu'. injection Hu' as <-. rewrite Ht.
    destruct link as [h d]. simpl in *. now rewrite Hn.
Qed.

(** X12.  The download handler and the morpher select the same images: the
    labels and urls the handler filters are those of the images drawn, in
    the same order. *)
Theorem X12_download_list_agrees (a : App) :
  (fun img => (sp_label img, sp_url img)) <$> downloadable a
  = (fun image => (label image, entry_url image))
      <$> successfulImages (generatedImages a) TIME_LABELS.
Proof.
  rewrite downloadable_usable, successfulImages_usable, <- !list_fmap_compose.
  apply list_fmap_ext. intros i l _. reflexivity.
Qed.

(** X13.  A click on the download button downloads something exactly when
    the slider value [c] satisfies [-1/2 <= c < n - 1/2], where [n] is the
    number of successful images; so with a single image nothing is
    downloaded in the upper half of the slider. *)
Theorem X13_download_happens_iff (a : App) :
  is_Some (handleDownloadCurrentImage a) <->
  - (1 # 2) <= sliderValue a /\
  sliderValue a
    < ofIndex (length (successfulImages (generatedImages a) TIME_LABELS)) - (1 # 2).
Proof.
  pose proof (mathRound_bounds (sliderValue a)) as [Hlo Hhi].
  rewrite <- downloadable_length. unfold ofIndex. split.
  - intros [link Hl].
    apply handleDownloadCurrentImage_Some in Hl as (img & Hk & Hl & _).
    apply lookup_lt_Some in Hl.
    assert (H0 : 0 <= inject_Z (mathRound (sliderValue a)))
      by (change 0 with (inject_Z 0); rewrite <- Zle_Qle; exact Hk).
    assert (H1 : inject_Z (mathRound (sliderValue a)) + 1
                 <= inject_Z (Z.of_nat (length (downloadable a)))).
    { change 1 with (inject_Z 1). rewrite <- inject_Z_plus, <- Zle_Qle. lia. }
    split; lra.
  - intros [H0 H1].
    assert (Hk : (0 <= mathRound (sliderValue a))%Z).
    { destruct (Z.le_gt_cases 0 (mathRound (sliderValue a))) as [H|H]; [exact H|].
      exfalso.
      assert (inject_Z (mathRound (sliderValue a)) + 1 <= 0).
      { change 1 with (inject_Z 1). change 0 with (inject_Z 0).
        rewrite <- inject_Z_plus, <- Zle_Qle. lia. }
      lra. }
    assert (Hlt : (Z.to_nat (mathRound (sliderValue a)) < length (downloadable a))%nat).
    { assert (inject_Z (mathRound (sliderValue a))
              < inject_Z (Z.of_nat (length (downloadable a)))) as H by lra.
      rewrite <- Zlt_Qlt in H. lia. }
    destruct (lookup_lt_is_Some_2 _ _ Hlt) as [img Himg].
    destruct (downloadable_lookup a _ img Himg) as (_ & _ & u & Hu & _).
    exists {| link_href := u;
              link_download := "past-forward-"
                 +:+ replaceFirst " " EmptyString (sp_label img) +:+ ".jpg" |}.
    apply handleDownloadCurrentImage_Some. exists img. repeat split; assumption.
Qed.

(** X14.  The image that is downloaded is the most visible one: its opacity
    at the slider value is at least 1/2 and that of every other image is at
    most 1/2; the link points at its url. *)
Theorem X14_download_most_opaque (a : App) (link : Link) :
  handleDownloadCurrentImage a = Some link ->
  exists k image,
    successfulImages (generatedImages a) TIME_LABELS !! k = Some image /\
    entry_url image = Some (link_href link) /\
    1 # 2 <= calculateOpacity (ofIndex k) (sliderValue a) /\
    forall j, j <> k -> calculateOpacity (ofIndex j) (sliderValue a) <= 1 # 2.
Proof.
  intros (img & Hk & Hl & Hu & _)%handleDownloadCurrentImage_Some.
  pose proof (mathRound_bounds (sliderValue a)) as [Hlo Hhi].
  set (k := Z.to_nat (mathRound (sliderValue a))) in *.
  assert (Ek : ofIndex k = inject_Z (mathRound (sliderValue a))).
  { unfold ofIndex, k. now rewrite Z2Nat.id. }
  rewrite <- Ek in Hlo, Hhi.
  destruct (downloadable_lookup a k img Hl) as (Hs & He & _).
  exists k, (entryOf (generatedImages a) (sp_label img)).
  split; [exact Hs|]. split; [now rewrite He|]. split.
  - destruct (calculateOpacity_cases (ofIndex k) (sliderValue a)) as [[H E]|[H E]];
      rewrite E; revert H; apply Qabs_case; intros; lra.
  - intros j Hj.
    assert (Hd : ofIndex j + 1 <= ofIndex k \/ ofIndex k + 1 <= ofIndex j).
    { destruct (Nat.lt_ge_cases j k) as [Hlt|Hge].
      - left. rewrite <- ofIndex_S. apply ofIndex_le. lia.
      - right. rewrite <- ofIndex_S. apply ofIndex_le. lia. }
    destruct (calculateOpacity_cases (ofIndex j) (sliderValue a)) as [[H E]|[H E]];
      rewrite E; [|lra].
    revert H. apply Qabs_case; intros; lra.
Qed.

Lemma X14_download_most_opaque_witness :
  let a := setSliderValue (8 # 5)
             (setGeneratedImages (fun _ => finalImages demoApp demoSchedule) demoApp) in
  exists link k image,
    handleDownloadCurrentImage a = Some link /\
    successfulImages (generatedImages a) TIME_LABELS !! k = Some image /\
    entry_url image = Some (link_href link) /\
    1 # 2 <= calculateOpacity (ofIndex k) (sliderValue a) /\
    forall j, j <> k -> calculateOpacity (ofIndex j) (sliderValue a) <= 1 # 2.
Proof.
  cbv zeta.
  destruct (handleDownloadCurrentImage
              (setSliderValue (8 # 5)
                 (setGeneratedImages (fun _ => finalImages demoApp demoSchedule) demoApp)))
    as [link|] eqn:E; [|vm_compute in E; discriminate].
  destruct (X14_download_most_opaque _ link E) as (k & image & H).
  exists link, k, image. split; [reflexivity | exact H].
Defined.

Example download_demo :
  handleDownloadCurrentImage
    (setSliderValue (8 # 5)
       (setGeneratedImages (fun _ => finalImages demoApp demoSchedule) demoApp))
  = Some {| link_href := demoUrl 3; link_download := "past-forward-+25years.jpg" |}.
Proof. vm_compute. reflexivity. Qed.

Example download_lone_upper_half :
  handleDownloadCurrentImage
    (setSliderValue (1 # 2)
       (setGeneratedImages (fun _ => finalImages demoApp loneSchedule) demoApp))
  = None.
Proof. vm_compute. reflexivity. Qed.

(** ** Further properties of the batch *)

Lemma step_frame (e : Event) (r r' : Run) :
  step r e = Some r' ->
  sourceImage (app r') = sourceImage (app r) /\
  sliderValue (app r') = sliderValue (app r).
Proof.
  destruct e as [index o|]; simpl.
  - intros (t & _ & _ & _ & _ & _ & _ & Hs & Hv)%settle_inv. now split.
  - intros (_ & _ & _ & -> & _)%resume_inv. now split.
Qed.

Lemma exec_frame (events : list Event) (r r' : Run) :
  exec r events = Some r' ->
  sourceImage (app r') = sourceImage (app r) /\
  sliderValue (app r') = sliderValue (app r).
Proof.
  revert r. induction events as [|e events IH]; intros r He.
  - injection He as <-. now split.
  - apply exec_cons_inv in He as (r1 & Hstep & He).
    destruct (IH r1 He) as [-> ->]. exact (step_frame e r r1 Hstep).
Qed.

Lemma handleGenerateClick_frame (a : App) :
  sourceImage (app (handleGenerateClick a)) = sourceImage a /\
  sliderValue (app (handleGenerateClick a)) = sliderValue a.
Proof.
  unfold handleGenerateClick. destruct (sourceImage a) as [source|] eqn:E.
  - destruct (String.eqb source EmptyString); simpl; now rewrite ?E.
  - simpl. now rewrite E.
Qed.

(** X15.  A batch never touches the source image or the slider value: in
    every state it reaches they are those of the click. *)
Theorem X15_batch_keeps_source_and_slider (a : App) (events : list Event) (r : Run) :
  exec (handleGenerateClick a) events = Some r ->
  sourceImage (app r) = sourceImage a /\ sliderValue (app r) = sliderValue a.
Proof.
  intros He. destruct (exec_frame events _ r He) as [-> ->].
  apply handleGenerateClick_frame.
Qed.

Lemma X15_batch_keeps_source_and_slider_witness :
  sourceImage (app demoRun) = sourceImage demoApp /\
  sliderValue (app demoRun) = sliderValue demoApp.
Proof.
  apply (X15_batch_keeps_source_and_slider demoApp demoEvents demoRun).
  vm_compute. reflexivity.
Defined.

(** X16.  An entry that is done or in error never changes again: whatever
    happens later in the batch, the label keeps that entry. *)
Theorem X16_terminal_entries_are_final
    (a : App) (before after : list Event) (r1 r2 : Run)
    (l : string) (image : GeneratedImage) :
  present a ->
  exec (handleGenerateClick a) before = Some r1 ->
  exec r1 after = Some r2 ->
  generatedImages (app r1) !! l = Some image ->
  terminal (status image) ->
  generatedImages (app r2) !! l = Some image.
Proof.
  intros Hp H1 H2 Hl Hterm.
  destruct (Inv_reachable a Hp before r1 H1) as (Hlab & Hdom & Htasks & _).
  assert (Hin : l ∈ TIME_LABELS) by (apply Hdom; eauto).
  rewrite <- Hlab in Hin. apply list_elem_of_fmap in Hin as (t & -> & Ht).
  apply list_elem_of_lookup in Ht as [i Hi].
  assert (Hnd : NoDup (task_label <$> generationPromises r1))
    by (rewrite Hlab; apply TIME_LABELS_NoDup).
  rewrite (exec_lookup after r1 r2 i t Hnd H2 Hi).
  specialize (Htasks i t Hi).
  assert (Hs : settled (task_state t) = true).
  { destruct (task_state t); [|reflexivity|contradiction].
    rewrite Hl in Htasks. injection Htasks as ->.
    destruct Hterm as [H|H]; discriminate. }
  now rewrite (exec_settled_no_outcome after r1 r2 i t H2 Hi Hs).
Qed.

Lemma X16_terminal_entries_are_final_witness :
  generatedImages (app demoRun) !! "-75 years"
  = Some (imageOf (Resolves (demoUrl 0))).
Proof.
  apply (X16_terminal_entries_are_final demoApp demoPrefix
           (toEvents (drop 3 demoSchedule) ++ [Resume]) demoMidRun demoRun).
  - reflexivity.
  - vm_compute. reflexivity.
  - vm_compute. reflexivity.
  - vm_compute. reflexivity.
  - left. reflexivity.
Defined.

Lemma task_label_labelAt (r : Run) (i : nat) (t : Task) :
  task_label <$> generationPromises r = TIME_LABELS ->
  generationPromises r !! i = Some t ->
  task_label t = labelAt i.
Proof.
  intros Hlab Ht. unfold labelAt. rewrite <- Hlab, list_lookup_fmap, Ht.
  reflexivity.
Qed.

Lemma exec_console (events : list Event) (r r' : Run) :
  task_label <$> generationPromises r = TIME_LABELS ->
  exec r events = Some r' ->
  console r' = console r ++ failureLines events.
Proof.
  revert r. induction events as [|e events IH]; intros r Hlab He.
  - injection He as <-. simpl. now rewrite app_nil_r.
  - apply exec_cons_inv in He as (r1 & Hstep & He).
    assert (Hlab1 : task_label <$> generationPromises r1 = TIME_LABELS)
      by (rewrite (step_labels e r r1 Hstep); exact Hlab).
    rewrite (IH r1 Hlab1 He).
    destruct e as [i o|]; simpl in Hstep.
    + unfold settle in Hstep.
      destruct (generationPromises r !! i) as [t|] eqn:Ht; [|discriminate].
      destruct (settled (task_state t)); [discriminate|].
      rewrite (task_label_labelAt r i t Hlab Ht) in Hstep.
      destruct o as [u|err]; injection Hstep as <-; simpl.
      * reflexivity.
      * unfold failureLines at 2. simpl. fold (failureLines events).
        now rewrite <- app_assoc.
    + unfold resume in Hstep. destruct (handler r); try discriminate.
      destruct (allSettled (task_state <$> generationPromises r));
        try discriminate; injection Hstep as <-; reflexivity.
Qed.

(** X17.  The console holds one line for each call that was rejected, in
    the order in which the calls were rejected, naming the label of the
    call; a call that succeeds writes nothing. *)
Theorem X17_console_lists_failures (a : App) (events : list Event) (r : Run) :
  present a ->
  exec (handleGenerateClick a) events = Some r ->
  console r = failureLines events.
Proof.
  intros Hp He.
  destruct (handleGenerateClick_present a Hp) as (source & _ & Hstart).
  rewrite (exec_console events _ r (proj1 (Inv_start a Hp)) He).
  now rewrite Hstart.
Qed.

Lemma X17_console_lists_failures_witness :
  console demoRun = failureLines demoEvents /\
  console demoRun = [ "Failed to generate image for -50 years:";
                      "Failed to generate image for +50 years:" ].
Proof.
  split; [|vm_compute; reflexivity].
  apply (X17_console_lists_failures demoApp demoEvents demoRun).
  - reflexivity.
  - vm_compute. reflexivity.
Defined.

Lemma step_calls (e : Event) (r r' : Run) :
  step r e = Some r' ->
  (fun t => (task_source t, task_prompt t)) <$> generationPromises r'
  = (fun t => (task_source t, task_prompt t)) <$> generationPromises r.
Proof.
  destruct e as [index o|]; simpl.
  - intros (t & Ht & _ & _ & -> & _)%settle_inv.
    rewrite list_fmap_insert. apply list_insert_id.
    rewrite list_lookup_fmap, Ht. reflexivity.
  - intros (_ & _ & _ & _ & ->)%resume_inv. reflexivity.
Qed.

Lemma exec_calls (events : list Event) (r r' : Run) :
  exec r events = Some r' ->
  (fun t => (task_source t, task_prompt t)) <$> generationPromises r'
  = (fun t => (task_source t, task_prompt t)) <$> generationPromises r.
Proof.
  revert r. induction events as [|e events IH]; intros r He.
  - now injection He as <-.
  - apply exec_cons_inv in He as (r1 & Hstep & He).
    rewrite (IH r1 He). exact (step_calls e r r1 Hstep).
Qed.

(** X18.  A batch issues one call for each shift, in the order of the
    shifts, each with the source image of the click and the prompt of its
    shift; no call is added, repeated or dropped afterwards. *)
Theorem X18_one_call_per_shift (a : App) (events : list Event) (r : Run) (source : string) :
  sourceImage a = Some source ->
  source <> EmptyString ->
  exec (handleGenerateClick a) events = Some r ->
  (fun t => (task_source t, task_prompt t)) <$> generationPromises r
  = (fun shift => (source, getTransformPrompt shift)) <$> TIME_SHIFTS.
Proof.
  intros Hs Hne He. rewrite (exec_calls events _ r He).
  unfold handleGenerateClick. rewrite Hs.
  destruct (String.eqb source EmptyString) eqn:E.
  - apply String.eqb_eq in E. contradiction.
  - reflexivity.
Qed.

Lemma X18_one_call_per_shift_witness :
  (fun t => (task_source t, task_prompt t)) <$> generationPromises demoMidRun
  = (fun shift => (demoSource, getTransformPrompt shift)) <$> TIME_SHIFTS.
Proof.
  apply (X18_one_call_per_shift demoApp demoPrefix demoMidRun demoSource).
  - reflexivity.
  - discriminate.
  - vm_compute. reflexivity.
Defined.



(** ** The batch and what surrounds it *)

(** Two runs with the same labels and promise states, handler, mapping and
    [appState] take the same steps. *)
Lemma step_sim (e : Event) (r1 r2 r1' : Run) :
  (fun t => (task_label t, task_state t)) <$> generationPromises r1
    = (fun t => (task_label t, task_state t)) <$> generationPromises r2 ->
  handler r1 = handler r2 ->
  generatedImages (app r1) = generatedImages (app r2) ->
  appState (app r1) = appState (app r2) ->
  step r1 e = Some r1' ->
  exists r2',
    step r2 e = Some r2' /\
    (fun t => (task_label t, task_state t)) <$> generationPromises r1'
      = (fun t => (task_label t, task_state t)) <$> generationPromises r2' /\
    handler r1' = handler r2' /\
    generatedImages (app r1') = generatedImages (app r2') /\
    appState (app r1') = appState (app r2').
Proof.
  intros Hsh Hh Him Has Hstep. destruct e as [i o|]; simpl in Hstep |- *.
  - destruct (settle_inv _ _ _ _ Hstep)
      as (t1 & Ht1 & Hst1 & Him1 & Hps1 & Hh1 & Has1 & _).
    assert (Hl : (fun t => (task_label t, task_state t)) <$> generationPromises r2 !! i
                 = Some (task_label t1, task_state t1)).
    { rewrite <- list_lookup_fmap, <- Hsh, list_lookup_fmap, Ht1. reflexivity. }
    destruct (generationPromises r2 !! i) as [t2|] eqn:Ht2; [|discriminate].
    simpl in Hl. injection Hl as Hlab Hst.
    destruct (settle_pending i o r2 t2 Ht2) as [r2' Hs2]; [congruence|].
    destruct (settle_inv _ _ _ _ Hs2)
      as (t2' & Ht2' & _ & Him2 & Hps2 & Hh2 & Has2 & _).
    rewrite Ht2 in Ht2'. injection Ht2' as <-.
    exists r2'. split; [exact Hs2|].
    split; [|split; [congruence|split; [|congruence]]].
    + rewrite Hps1, Hps2, !list_fmap_insert, Hsh. simpl. now rewrite Hlab.
    + rewrite Him1, Him2, Him, Hlab. reflexivity.
  - destruct (resume_inv _ _ Hstep) as (Hp1 & Hall & Hf & Ha & Hps).
    assert (Hst : task_state <$> generationPromises r1
                  = task_state <$> generationPromises r2).
    { change task_state with (snd ∘ (fun t => (task_label t, task_state t))).
      now rewrite !list_fmap_compose, Hsh. }
    exists {| app := setAppState results_shown (app r2);
              generationPromises := generationPromises r2;
              console := console r2;
              handler := FulfilledP |}.
    split.
    + unfold resume, allSettled. now rewrite <- Hh, Hp1, <- Hst, Hall.
    + simpl. rewrite Hps, Hf, Ha. simpl. repeat split; assumption.
Qed.

Lemma exec_sim (events : list Event) (r1 r2 r1' : Run) :
  (fun t => (task_label t, task_state t)) <$> generationPromises r1
    = (fun t => (task_label t, task_state t)) <$> generationPromises r2 ->
  handler r1 = handler r2 ->
  generatedImages (app r1) = generatedImages (app r2) ->
  appState (app r1) = appState (app r2) ->
  exec r1 events = Some r1' ->
  exists r2',
    exec r2 events = Some r2' /\
    handler r1' = handler r2' /\
    generatedImages (app r1') = generatedImages (app r2') /\
    appState (app r1') = appState (app r2').
Proof.
  revert r1 r2. induction events as [|e events IH]; intros r1 r2 Hsh Hh Him Has He.
  - injection He as <-. exists r2. repeat split; assumption.
  - apply exec_cons_inv in He as (r1a & Hstep & He).
    destruct (step_sim e r1 r2 r1a Hsh Hh Him Has Hstep)
      as (r2a & Hstep2 & Hsh' & Hh' & Him' & Has').
    destruct (IH r1a r2a Hsh' Hh' Him' Has' He) as (r2' & He2 & H).
    exists r2'. split; [simpl; rewrite Hstep2; exact He2 | exact H].
Qed.

(** X20.  A batch starts afresh: its mapping, the state of its handler and
    the view it ends in depend on the events alone, not on the source, the
    earlier results or the state in which the button was clicked. *)
Theorem X20_batch_starts_afresh (a a' : App) (events : list Event) (r : Run) :
  present a -> present a' ->
  exec (handleGenerateClick a) events = Some r ->
  exists r',
    exec (handleGenerateClick a') events = Some r' /\
    handler r' = handler r /\
    generatedImages (app r') = generatedImages (app r) /\
    appState (app r') = appState (app r).
Proof.
  intros Hp Hp' He.
  destruct (handleGenerateClick_present a Hp) as (source & _ & Hstart).
  destruct (handleGenerateClick_present a' Hp') as (source' & _ & Hstart').
  destruct (exec_sim events (handleGenerateClick a) (handleGenerateClick a') r)
    as (r' & He' & Hh & Him & Has); try exact He;
    try (rewrite Hstart, Hstart'; reflexivity).
  exists r'. repeat split; [exact He' | | |]; congruence.
Qed.

Lemma X20_batch_starts_afresh_witness :
  exists r',
    exec (handleGenerateClick
            (imageChosen (demoUrl 7) (setSliderValue (1 # 2) (app demoRun))))
         demoEvents = Some r' /\
    handler r' = handler demoRun /\
    generatedImages (app r') = generatedImages (app demoRun) /\
    appState (app r') = appState (app demoRun).
Proof.
  apply (X20_batch_starts_afresh demoApp
           (imageChosen (demoUrl 7) (setSliderValue (1 # 2) (app demoRun)))
           demoEvents demoRun).
  - reflexivity.
  - reflexivity.
  - vm_compute. reflexivity.
Defined.

(** X21.  A label is among the successful images exactly when its own call
    was fulfilled with a non-empty url. *)
Theorem X21_successful_iff_resolved
    (a : App) (events : list Event) (r : Run) (i : nat) (l : string) :
  present a ->
  exec (handleGenerateClick a) events = Some r ->
  TIME_LABELS !! i = Some l ->
  (l ∈ label <$> successfulImages (generatedImages (app r)) TIME_LABELS <->
   exists u, Settle i (Resolves u) ∈ events /\ u <> EmptyString).
Proof.
  intros Hp He Hl. rewrite successfulImages_labels. unfold usableLabels.
  rewrite list_elem_of_In, filter_In, <- list_elem_of_In.
  rewrite (usable_of_entry _ l _ (batch_lookup a Hp events r i l He Hl)).
  split.
  - intros [_ Hu].
    destruct (outcomeOf i events) as [[u|err]|] eqn:E; simpl in Hu;
      try discriminate.
    exists u. split; [now apply outcomeOf_Some_in|].
    intros ->. discriminate.
  - intros (u & Hin & Hne).
    split; [apply list_elem_of_lookup; eauto|].
    rewrite (exec_outcome_unique events _ r i _ He Hin). simpl.
    destruct u; [contradiction|reflexivity].
Qed.

Lemma X21_successful_iff_resolved_witness :
  "+25 years" ∈ label <$> successfulImages (generatedImages (app demoRun)) TIME_LABELS <->
  exists u, Settle 3 (Resolves u) ∈ demoEvents /\ u <> EmptyString.
Proof.
  apply (X21_successful_iff_resolved demoApp demoEvents demoRun 3 "+25 years").
  - reflexivity.
  - vm_compute. reflexivity.
  - reflexivity.
Defined.





(** X24.  After a reset, from whatever state, choosing a photo and
    generating runs a whole batch: every complete schedule ends with the
    results shown for the photo chosen, the slider back at 2, and a further
    reset gives the initial state again. *)
Theorem X24_reset_then_generate
    (a : App) (dataUrl : string) (schedule : list (nat * Outcome)) :
  dataUrl <> EmptyString ->
  schedule.*1 ≡ₚ seq 0 (length TIME_SHIFTS) ->
  handleReset a = initialApp /\
  buttons (handleReset a) = [TakePhoto; UploadPhoto] /\
  Generate ∈ buttons (imageChosen dataUrl (handleReset a)) /\
  exists r,
    runBatch (imageChosen dataUrl (handleReset a)) schedule = Some r /\
    buttons (app r) = [DownloadImage; StartOver] /\
    sourceImage (app r) = Some dataUrl /\
    sliderValue (app r) = 2 /\
    handleReset (app r) = initialApp.
Proof.
  intros Hne Hperm.
  assert (Hp : present (imageChosen dataUrl (handleReset a))).
  { unfold present. simpl. destruct dataUrl; [contradiction|reflexivity]. }
  split; [reflexivity|]. split; [reflexivity|]. split.
  - unfold buttons. simpl.
    change (truthy (Some dataUrl)) with (truthy (sourceImage (imageChosen dataUrl (handleReset a)))).
    rewrite Hp. apply list_elem_of_here.
  - destruct (batch_completes _ Hp schedule Hperm) as (r & Hr & Hh & Hs).
    exists r. split; [exact Hr|].
    destruct (exec_frame _ _ r Hr) as [Hsrc Hv].
    destruct (handleGenerateClick_frame (imageChosen dataUrl (handleReset a)))
      as [Hsrc0 Hv0].
    split; [unfold buttons; now rewrite Hs|].
    split; [now rewrite Hsrc, Hsrc0|].
    split; [now rewrite Hv, Hv0|reflexivity].
Qed.

Lemma X24_reset_then_generate_witness :
  handleReset (app demoRun) = initialApp /\
  buttons (handleReset (app demoRun)) = [TakePhoto; UploadPhoto] /\
  Generate ∈ buttons (imageChosen demoSource (handleReset (app demoRun))) /\
  exists r,
    runBatch (imageChosen demoSource (handleReset (app demoRun))) loneSchedule = Some r /\
    buttons (app r) = [DownloadImage; StartOver] /\
    sourceImage (app r) = Some demoSource /\
    sliderValue (app r) = 2 /\
    handleReset (app r) = initialApp.
Proof.
  apply (X24_reset_then_generate (app demoRun) demoSource loneSchedule).
  - discriminate.
  - apply (bool_decide_unpack _). vm_compute. exact I.
Defined.

(** ** The scaling of [resizeImage] *)

Lemma scale_facts (big small : Q) :
  MAX_DIMENSION < big -> 0 <= small -> small <= big ->
  0 <= small * (MAX_DIMENSION / big) /\
  small * (MAX_DIMENSION / big) <= small /\
  small * (MAX_DIMENSION / big) <= MAX_DIMENSION.
Proof.
  unfold MAX_DIMENSION. intros Hbig H0 Hle.
  assert (Hk : (1024 / big) * big == 1024) by (field; intros E; rewrite E in Hbig; lra).
  set (k := 1024 / big) in *.
  assert (Hk0 : 0 < k) by nra.
  assert (Hk1 : k <= 1) by nra.
  repeat split; nra.
Qed.

Lemma resizeDimensions_cases (width height : Q) :
  (height < width /\ MAX_DIMENSION < width /\
   resizeDimensions width height
   = (MAX_DIMENSION, height * (MAX_DIMENSION / width))) \/
  (width <= height /\ MAX_DIMENSION < height /\
   resizeDimensions width height
   = (width * (MAX_DIMENSION / height), MAX_DIMENSION)) \/
  (width <= MAX_DIMENSION /\ height <= MAX_DIMENSION /\
   resizeDimensions width height = (width, height)).
Proof.
  unfold resizeDimensions.
  destruct (Qlt_le_dec height width) as [H1|H1];
    [destruct (Qlt_le_dec MAX_DIMENSION width) as [H2|H2]
    |destruct (Qlt_le_dec MAX_DIMENSION height) as [H2|H2]].
  - left. repeat split; assumption.
  - right. right. repeat split; lra.
  - right. left. repeat split; assumption.
  - right. right. repeat split; lra.
Qed.

(** X25.  The size given to the canvas fits in 1024 by 1024 and is never
    larger than the image: neither side grows, and when the image is too
    large its longer side becomes exactly 1024. *)
Theorem X25_resize_fits (width height : Q) :
  0 <= width -> 0 <= height ->
  let d := resizeDimensions width height in
  0 <= d.1 <= MAX_DIMENSION /\ 0 <= d.2 <= MAX_DIMENSION /\
  d.1 <= width /\ d.2 <= height /\
  (MAX_DIMENSION < width \/ MAX_DIMENSION < height ->
     (height < width -> d.1 = MAX_DIMENSION) /\
     (width <= height -> d.2 = MAX_DIMENSION)).
Proof.
  intros Hw Hh. cbv zeta.
  destruct (resizeDimensions_cases width height)
    as [(H1 & H2 & ->)|[(H1 & H2 & ->)|(H1 & H2 & ->)]]; simpl.
  - destruct (scale_facts width height H2 Hh) as (A & B & C); [lra|].
    unfold MAX_DIMENSION in *. repeat split; try lra.
  - destruct (scale_facts height width H2 Hw H1) as (A & B & C).
    unfold MAX_DIMENSION in *. repeat split; try lra.
  - unfold MAX_DIMENSION in *. repeat split; try lra.
Qed.

Lemma X25_resize_fits_witness :
  let d := resizeDimensions 4032 3024 in
  0 <= d.1 <= MAX_DIMENSION /\ 0 <= d.2 <= MAX_DIMENSION /\
  d.1 <= 4032 /\ d.2 <= 3024 /\
  (MAX_DIMENSION < 4032 \/ MAX_DIMENSION < 3024 ->
     (3024 < 4032 -> d.1 = MAX_DIMENSION) /\
     (4032 <= 3024 -> d.2 = MAX_DIMENSION)).
Proof.
  apply (X25_resize_fits 4032 3024); vm_compute; discriminate.
Defined.

(** X26.  An image that already fits is left at its size, and resizing
    twice is resizing once: the size computed is a fixed point. *)
Theorem X26_resize_idempotent (width height : Q) :
  0 <= width -> 0 <= height ->
  (width <= MAX_DIMENSION -> height <= MAX_DIMENSION ->
     resizeDimensions width height = (width, height)) /\
  resizeDimensions (resizeDimensions width height).1
                   (resizeDimensions width height).2
  = resizeDimensions width height.
Proof.
  intros Hw Hh.
  assert (Hfit : forall w h, w <= MAX_DIMENSION -> h <= MAX_DIMENSION ->
                             resizeDimensions w h = (w, h)).
  { intros w h H1 H2.
    destruct (resizeDimensions_cases w h)
      as [(_ & H & _)|[(_ & H & _)|(_ & _ & E)]]; [lra|lra|exact E]. }
  split; [apply Hfit|].
  destruct (resizeDimensions_cases width height)
    as [(H1 & H2 & E)|[(H1 & H2 & E)|(H1 & H2 & E)]]; rewrite E; simpl.
  - destruct (scale_facts width height H2 Hh) as (_ & _ & C); [lra|].
    apply Hfit; [unfold MAX_DIMENSION; lra | exact C].
  - destruct (scale_facts height width H2 Hw H1) as (_ & _ & C).
    apply Hfit; [exact C | unfold MAX_DIMENSION; lra].
  - now apply Hfit.
Qed.

Lemma X26_resize_idempotent_witness :
  (800 <= MAX_DIMENSION -> 600 <= MAX_DIMENSION ->
     resizeDimensions 800 600 = (800, 600)) /\
  resizeDimensions (resizeDimensions 800 600).1 (resizeDimensions 800 600).2
  = resizeDimensions 800 600.
Proof.
  apply (X26_resize_idempotent 800 600); vm_compute; discriminate.
Defined.
